(** * pyjarowinkler: the Jaro / Jaro-Winkler distance of [distance.py]

    A shallow embedding of [src/pyjarowinkler/distance.py] and the
    properties of its functions.

    - A Python [str] is a list of characters ([list ascii]; a character is a
      code point below 256, on which [str.lower] is a map of characters).
      Beyond them [str.lower] can lengthen a string, while [_score] chooses
      the shorter by the lengths of its arguments as given: no proof here
      uses that [lower] keeps the length.
    - A Python value that can reach the entry points is a [pyval]: [None],
      a [str], a [list] or a [tuple].
    - A raised exception is a [Raise e] result; every function that can raise
      lives in the [result] monad, and the loops that cannot are shown not to.
    - A Python [float] is a finite binary64 value, written as the rational it
      denotes; each operation rounds its exact result to the nearest
      binary64 value, ties to even ([rnd]); [round] is Python 3's. Overflow,
      the infinities and NaN are outside the model: no operation on two
      string lengths reaches them, nor does one on a scaling factor in
      [0, 0.25]. *)

From Stdlib Require Import List Ascii String ZArith QArith Qround Qabs Qpower.
From Stdlib Require Import Lia Lqa Psatz Bool Arith.
From Stdlib Require Import Floats.
Import ListNotations.

Open Scope nat_scope.

(** ** Exceptions and results *)

Definition str := list ascii.

(** A string literal as a Python [str]. *)
Definition py (s : string) : str := list_ascii_of_string s.

Inductive exn : Type :=
| JaroDistanceException (message : str)
| AttributeError
| ValueError
| IndexError
| ZeroDivisionError.

Inductive result (A : Type) : Type :=
| Return (a : A)
| Raise (e : exn).

Arguments Return {A} a.
Arguments Raise {A} e.

Definition bind {A B : Type} (m : result A) (k : A -> result B) : result B :=
  match m with
  | Return a => k a
  | Raise e => Raise e
  end.

Notation "x <- m ;; k" := (bind m (fun x => k))
  (at level 61, m at next level, right associativity).

(** ** Strings *)

(** [str.lower] on one code point below 256: the ASCII capitals and the
    Latin-1 capitals (all of 192..222 but the multiplication sign 215) move
    up by 32. *)
Definition lower_char (c : ascii) : ascii :=
  let n := nat_of_ascii c in
  if ((65 <=? n) && (n <=? 90)) || ((192 <=? n) && (n <=? 222) && negb (n =? 215))
  then ascii_of_nat (n + 32)
  else c.

Definition lower (s : str) : str := map lower_char s.

(** [len(s)] *)
Definition len (s : str) : nat := List.length s.

(** [s[a:b]] for indices [0 <= a] and [0 <= b]. *)
Definition slice (s : str) (a b : nat) : str := firstn (b - a) (skipn a s).

(** [l in s] *)
Fixpoint contains (s : str) (l : ascii) : bool :=
  match s with
  | [] => false
  | c :: s' => Ascii.eqb c l || contains s' l
  end.

(** [s.index(l)]: the position of the first [l], [ValueError] when absent. *)
Fixpoint index (s : str) (l : ascii) : result nat :=
  match s with
  | [] => Raise ValueError
  | c :: s' => if Ascii.eqb c l then Return 0 else i <- index s' l ;; Return (S i)
  end.

(** [s[i]] for [0 <= i]: [IndexError] out of range. *)
Definition getitem (s : str) (i : nat) : result ascii :=
  match nth_error s i with
  | Some c => Return c
  | None => Raise IndexError
  end.

Definition str_eqb (a b : str) : bool :=
  if list_eq_dec ascii_dec a b then true else false.

(** ** [_get_matching_characters] *)

(** The sentinel written over a consumed character. *)
Definition sentinel : ascii := "*"%char.

(** The body of [for i, l in enumerate(first)], from position [i] on:
    [rest] is [first[i:]], [common] and [second] are the loop's variables. *)
Fixpoint matching_loop (limit i : nat) (rest common second : str) : result str :=
  match rest with
  | [] => Return common
  | l :: rest' =>
      let left := Nat.max 0 (i - limit) in
      let right := Nat.min (i + limit + 1) (len second) in
      if contains (slice second left right) l then
        k <- index second l ;;
        k' <- index second l ;;
        matching_loop limit (S i) rest' (common ++ [l])
          (slice second 0 k ++ [sentinel] ++ skipn (k' + 1) second)
      else matching_loop limit (S i) rest' common second
  end.

Definition _get_matching_characters (first second : str) : result str :=
  let limit := Nat.min (len first) (len second) / 2 in
  matching_loop limit 0 first [] second.

(** ** [_transpositions] *)

Definition _transpositions (first second : str) : nat :=
  List.length (filter (fun fs => negb (Ascii.eqb (fst fs) (snd fs))) (combine first second)) / 2.

(** ** Floats

    A [float] is the rational a finite binary64 value denotes. [rnd q] is the
    binary64 value nearest to [q], ties to the even significand: the
    significand has 53 bits and the least exponent of a unit in the last
    place is [-1074] (subnormal numbers included). *)

Definition float := Q.
Bind Scope Q_scope with float.

Definition pow2 (e : Z) : Q := ((2 # 1) ^ e)%Q.

(** [floor (log2 q)] for [0 < q]. *)
Definition ilog2 (q : Q) : Z :=
  let k := (Z.log2 (Qnum q) - Z.log2 (Zpos (Qden q)))%Z in
  if Qle_bool (pow2 k) q then k else (k - 1)%Z.

(** The integer nearest to [q], ties to even: Python 3's [round(q)]. *)
Definition rne (q : Q) : Z :=
  let f := Qfloor q in
  match (q - inject_Z f ?= 1 # 2)%Q with
  | Lt => f
  | Gt => (f + 1)%Z
  | Eq => if Z.even f then f else (f + 1)%Z
  end.

(** The exponent of the unit in the last place of [q], for [0 < q]. *)
Definition ulp_exp (q : Q) : Z := Z.max (ilog2 q - 52) (-1074).

Definition rnd_pos (q : Q) : Q :=
  let e := ulp_exp q in (inject_Z (rne (q / pow2 e)) * pow2 e)%Q.

Definition rnd_signed (q : Q) : Q :=
  match (q ?= 0)%Q with
  | Eq => 0%Q
  | Gt => rnd_pos q
  | Lt => (- rnd_pos (- q))%Q
  end.

(** The result is kept in lowest terms, so that equal floats are equal terms. *)
Definition rnd (q : Q) : float := Qred (rnd_signed (Qred q)).

(** [float(n)], also the promotion of an [int] operand of a float operation. *)
Definition of_int (n : Z) : float := rnd (inject_Z n).

(** A decimal literal. *)
Definition lit (q : Q) : float := rnd q.

Definition fadd (x y : float) : float := rnd (x + y)%Q.
Definition fsub (x y : float) : float := rnd (x - y)%Q.
Definition fmul (x y : float) : float := rnd (x * y)%Q.

Definition fdiv (x y : float) : result float :=
  if Qeq_bool y 0%Q then Raise ZeroDivisionError else Return (rnd (x / y)%Q).

(** [round(x)] *)
Definition round (x : float) : Z := rne x.

(** ** [_score] *)

Definition _score (first second : str) : result float :=
  let shorter := lower first in
  let longer := lower second in
  let (longer, shorter) :=
    if len second <? len first then (shorter, longer) else (longer, shorter) in
  m1 <- _get_matching_characters shorter longer ;;
  m2 <- _get_matching_characters longer shorter ;;
  if (len m1 =? 0) || (len m2 =? 0) then Return (lit 0%Q)
  else
    x1 <- fdiv (of_int (Z.of_nat (len m1))) (of_int (Z.of_nat (len shorter))) ;;
    x2 <- fdiv (of_int (Z.of_nat (len m2))) (of_int (Z.of_nat (len longer))) ;;
    x3 <- fdiv (of_int (Z.of_nat (len m1) - Z.of_nat (_transpositions m1 m2)))
               (of_int (Z.of_nat (len m1))) ;;
    fdiv (fadd (fadd x1 x2) x3) (lit 3%Q).

(** ** [_get_diff_index] and [_get_prefix] *)

(** [for i in range(0, max_len)], from [i] on, with [n] rounds left. *)
Fixpoint diff_loop (first second : str) (i n : nat) (max_len : nat) : result Z :=
  match n with
  | 0 => Return (Z.of_nat max_len)
  | S n' =>
      a <- getitem first i ;;
      b <- getitem second i ;;
      if negb (Ascii.eqb a b) then Return (Z.of_nat i)
      else diff_loop first second (S i) n' max_len
  end.

Definition _get_diff_index (first second : str) : result Z :=
  if str_eqb first second then Return (-1)%Z
  else if (len first =? 0) || (len second =? 0) then Return 0%Z
  else
    let max_len := Nat.min (len first) (len second) in
    diff_loop first second 0 max_len max_len.

Definition _get_prefix (first second : str) : result str :=
  if (len first =? 0) || (len second =? 0) then Return []
  else
    index <- _get_diff_index first second ;;
    if (index =? -1)%Z then Return first
    else if (index =? 0)%Z then Return []
    else Return (slice first 0 (Z.to_nat index)).

(** ** Python values at the entry points *)

#[warnings="-register-all"] Inductive pyval : Type :=
| PyNone
| PyStr (s : str)
| PyList (items : list pyval)
| PyTuple (items : list pyval).

(** [bool(v)]: [None], the empty string, list and tuple are false. *)
Definition truthy (v : pyval) : bool :=
  match v with
  | PyNone => false
  | PyStr s => negb (len s =? 0)
  | PyList items | PyTuple items => negb (List.length items =? 0)
  end.

(** [v.__class__.__name__] *)
Definition class_name (v : pyval) : str :=
  match v with
  | PyNone => py "NoneType"
  | PyStr _ => py "str"
  | PyList _ => py "list"
  | PyTuple _ => py "tuple"
  end.

Definition invalid_input (first second : pyval) : exn :=
  JaroDistanceException
    (py "Cannot calculate distance from NoneType (" ++ class_name first
       ++ py ", " ++ class_name second ++ py ")").

(** ** [get_jaro_distance] *)

(** The Winkler branch: [round((jaro + (scaling * cl * (1.0 - jaro))) * 100.0) / 100.0]. *)
Definition winkler_adjusted (jaro scaling : float) (cl : nat) : result float :=
  let adjusted :=
    fadd jaro (fmul (fmul scaling (of_int (Z.of_nat cl))) (fsub (lit 1%Q) jaro)) in
  fdiv (of_int (round (fmul adjusted (lit 100%Q)))) (lit 100%Q).

(** [first.lower()] in [_score] raises [AttributeError] on a value that is
    not a [str]; two strings go on as in the source. *)
Definition get_jaro_distance (first second : pyval)
    (winkler winkler_ajustment : bool) (scaling : float) : result float :=
  if negb (truthy first) || negb (truthy second) then
    Raise (invalid_input first second)
  else
    match first, second with
    | PyStr a, PyStr b =>
        jaro <- _score a b ;;
        prefix <- _get_prefix a b ;;
        let cl := Nat.min (len prefix) 4 in
        if winkler && winkler_ajustment then winkler_adjusted jaro scaling cl
        else Return jaro
    | _, _ => Raise AttributeError
    end.

(** The default of [scaling]. *)
Definition default_scaling : float := lit (1 # 10)%Q.

(** ** [get_jaro_distance_array] *)

(** A list comprehension [[f(i) for i in items]]: left to right, the first
    exception ends it. *)
Fixpoint comprehension {A B : Type} (f : A -> result B) (items : list A) : result (list B) :=
  match items with
  | [] => Return []
  | i :: items' =>
      y <- f i ;;
      ys <- comprehension f items' ;;
      Return (y :: ys)
  end.

Definition get_jaro_distance_array (first second : pyval)
    (winkler winkler_ajustment : bool) (scaling : float) : result (list float) :=
  let second :=
    match second with
    | PyList items => items
    | _ => [second]
    end in
  comprehension (fun i => get_jaro_distance first i winkler winkler_ajustment scaling) second.

(** * Definitions the statements use *)

(** ** Floats *)

(** [m * 2^e] with a significand of at most 53 bits, on the grid of binary64. *)
Definition representable (x : Q) : Prop :=
  exists m e : Z, (0 <= m < 2 ^ 53)%Z /\ (-1074 <= e)%Z /\ (x == inject_Z m * pow2 e)%Q.

(** A binary64 value: rounding leaves it alone. *)
Definition is_float (x : Q) : Prop := rnd x = x.

(** Half a unit in the last place below 1. *)
Definition half_ulp : Q := 1 # 18014398509481984.

(** [round(x * 100.0) / 100.0], the last step of the Winkler branch. *)
Definition two_decimals (x : float) : result float :=
  fdiv (of_int (round (fmul x (lit 100%Q)))) (lit 100%Q).

(** The arithmetic of the processor, to compare [rnd] with. *)
Module Hardware.

(** The rational a finite hardware float denotes. *)
Definition to_Q (x : PrimFloat.float) : option Q :=
  match Prim2SF x with
  | S754_zero _ => Some 0%Q
  | S754_finite s m e =>
      Some (Qred (inject_Z (if s then Z.neg m else Z.pos m) * pow2 e)%Q)
  | _ => None
  end.

(** [float(n)] for [0 <= n < 2^53]. *)
Definition of_Z (n : Z) : PrimFloat.float := PrimFloat.of_uint63 (Uint63.of_Z n).

(** The hardware float [x] denotes the model's float [q]. *)
Definition agree (x : PrimFloat.float) (q : float) : bool :=
  match to_Q x with
  | Some q' => Qeq_bool q' q && Qeq_bool (Qred q) q
  | None => false
  end.

Definition quotients : list (Z * Z) :=
  [(1, 10); (5, 6); (17, 18); (96, 100); (4, 5); (3, 4); (50, 51); (1, 3);
   (98, 100); (7, 8); (2, 3); (81, 100); (1, 1); (0, 7);
   (9007199254740991, 3); (1, 9007199254740991)]%Z.

Definition check_quotient (p : Z * Z) : bool :=
  match fdiv (of_int (fst p)) (of_int (snd p)) with
  | Return q => agree (PrimFloat.div (of_Z (fst p)) (of_Z (snd p))) q
  | Raise _ => false
  end.

(** Sum, difference and product of two quotients. *)
Definition check_operations (p : (Z * Z) * (Z * Z)) : bool :=
  let '((a, b), (c, d)) := p in
  let hx := PrimFloat.div (of_Z a) (of_Z b) in
  let hy := PrimFloat.div (of_Z c) (of_Z d) in
  match fdiv (of_int a) (of_int b), fdiv (of_int c) (of_int d) with
  | Return x, Return y =>
      agree (PrimFloat.add hx hy) (fadd x y) && agree (PrimFloat.sub hx hy) (fsub x y)
      && agree (PrimFloat.sub hy hx) (fsub y x) && agree (PrimFloat.mul hx hy) (fmul x y)
  | _, _ => false
  end.

Definition operands : list ((Z * Z) * (Z * Z)) :=
  [((1, 3), (2, 3)); ((17, 18), (1, 10)); ((5, 6), (1, 1)); ((1, 10), (3, 1));
   ((50, 51), (100, 1)); ((1, 7), (1, 9007199254740991)); ((4, 5), (3, 4));
   ((9007199254740991, 1), (1, 2)); ((1, 1), (1, 18014398509481984))]%Z.

(** [n] products by [2^-60], down through the subnormal numbers to zero. *)
Fixpoint check_underflow (n : nat) (h : PrimFloat.float) (x : float) : bool :=
  match n with
  | 0 => true
  | S n' =>
      let h' := PrimFloat.mul h (PrimFloat.div (of_Z 1) (of_Z (2 ^ 60))) in
      let x' := fmul x (rnd (1 # 2 ^ 60)) in
      agree h' x' && check_underflow n' h' x'
  end.

(** The float operations of [get_jaro_distance("MARTHA", "MARHTA")], on the
    hardware and in the model, step by step. *)
Definition martha : bool :=
  let h1 := PrimFloat.div (of_Z 6) (of_Z 6) in
  let h3 := PrimFloat.div (of_Z 5) (of_Z 6) in
  let hj := PrimFloat.div (PrimFloat.add (PrimFloat.add h1 h1) h3) (of_Z 3) in
  let hs := PrimFloat.div (of_Z 1) (of_Z 10) in
  let ha := PrimFloat.add hj (PrimFloat.mul (PrimFloat.mul hs (of_Z 3))
                                (PrimFloat.sub (of_Z 1) hj)) in
  let hm := PrimFloat.mul ha (of_Z 100) in
  match fdiv (of_int 6) (of_int 6), fdiv (of_int 5) (of_int 6) with
  | Return m1, Return m3 =>
      match fdiv (fadd (fadd m1 m1) m3) (lit 3%Q) with
      | Return mj =>
          let ma :=
            fadd mj (fmul (fmul default_scaling (of_int 3)) (fsub (lit 1%Q) mj)) in
          let mm := fmul ma (lit 100%Q) in
          agree h1 m1 && agree h3 m3 && agree hj mj && agree hs default_scaling
          && agree ha ma && agree hm mm
          && match fdiv (of_int (round mm)) (lit 100%Q) with
             | Return r => agree (PrimFloat.div (of_Z (round mm)) (of_Z 100)) r
             | Raise _ => false
             end
      | Raise _ => false
      end
  | _, _ => false
  end.

End Hardware.

(** ** Matching *)

(** Writing the sentinel over position [k]. *)
Definition consume (s : str) (k : nat) : str :=
  slice s 0 k ++ [sentinel] ++ skipn (k + 1) s.

(** The loop of [_get_matching_characters] once more, keeping beside
    [common] the position written at each match, and returning the working
    copy with them. *)
Fixpoint matching_steps (limit i : nat) (rest common : str) (consumed : list nat)
    (second : str) : result (str * list nat * str) :=
  match rest with
  | [] => Return (common, consumed, second)
  | l :: rest' =>
      let left := Nat.max 0 (i - limit) in
      let right := Nat.min (i + limit + 1) (len second) in
      if contains (slice second left right) l then
        k <- index second l ;;
        k' <- index second l ;;
        matching_steps limit (S i) rest' (common ++ [l]) (consumed ++ [k])
          (slice second 0 k ++ [sentinel] ++ skipn (k' + 1) second)
      else matching_steps limit (S i) rest' common consumed second
  end.

(** Every consumed position of [second] holds the sentinel in the end and is
    consumed by one match only. *)
Definition consumed_once (first second : str) : Prop :=
  exists m ks w,
    matching_steps (Nat.min (len first) (len second) / 2) 0 first [] [] second
      = Return (m, ks, w) /\
    _get_matching_characters first second = Return m /\
    List.length ks = len m /\
    NoDup ks /\
    Forall (fun k => nth_error w k = Some sentinel) ks.

(** ** Scores *)

(** The body of [_score] once [shorter] and [longer] are chosen. *)
Definition score_of (shorter longer : str) : result float :=
  m1 <- _get_matching_characters shorter longer ;;
  m2 <- _get_matching_characters longer shorter ;;
  if (len m1 =? 0) || (len m2 =? 0) then Return (lit 0%Q)
  else
    x1 <- fdiv (of_int (Z.of_nat (len m1))) (of_int (Z.of_nat (len shorter))) ;;
    x2 <- fdiv (of_int (Z.of_nat (len m2))) (of_int (Z.of_nat (len longer))) ;;
    x3 <- fdiv (of_int (Z.of_nat (len m1) - Z.of_nat (_transpositions m1 m2)))
               (of_int (Z.of_nat (len m1))) ;;
    fdiv (fadd (fadd x1 x2) x3) (lit 3%Q).

(** The longest common prefix, characters compared as they are: the common
    prefix of the specification. *)
Fixpoint common_prefix (a b : str) : str :=
  match a, b with
  | x :: a', y :: b' => if Ascii.eqb x y then x :: common_prefix a' b' else []
  | _, _ => []
  end.

(** Two strings of 17 characters, alike but for two neighbours swapped. *)
Definition a17 : str := py "abcdefghijklmnopq".
Definition b17 : str := py "acbdefghijklmnopq".

(** ** Inputs *)

(** A text value or an absent one. *)
Definition text_or_none (v : pyval) : Prop :=
  match v with
  | PyNone | PyStr _ => True
  | PyList _ | PyTuple _ => False
  end.

(** The empty string or [None]. *)
Definition empty_or_none (v : pyval) : Prop := v = PyNone \/ v = PyStr [].

(** A non-empty string. *)
Definition nonempty_str (v : pyval) : Prop := exists s, v = PyStr s /\ s <> [].

(** ** Subsequences and disjoint strings *)

(** [m] is [s] with some characters left out. *)
Inductive subsequence : str -> str -> Prop :=
| subsequence_nil : subsequence [] []
| subsequence_take c m s : subsequence m s -> subsequence (c :: m) (c :: s)
| subsequence_skip c m s : subsequence m s -> subsequence m (c :: s).

(** No character of [a] occurs in [b]. *)
Definition disjoint (a b : str) : Prop := forall c, In c a -> ~ In c b.

(** * The rounding of binary64 *)

Local Open Scope Q_scope.

Lemma pow2_pos e : 0 < pow2 e.
Proof. unfold pow2. apply Qpower_0_lt. reflexivity. Qed.

Lemma pow2_add a b : pow2 (a + b) == pow2 a * pow2 b.
Proof. unfold pow2. apply Qpower_plus. discriminate. Qed.

Lemma pow2_le a b : (a <= b)%Z -> pow2 a <= pow2 b.
Proof. intros H. unfold pow2. apply Qpower_le_compat_l; [exact H | discriminate]. Qed.

Lemma pow2_lt a b : (a < b)%Z -> pow2 a < pow2 b.
Proof. intros H. unfold pow2. apply Qpower_lt_compat_l; [exact H | reflexivity]. Qed.

Lemma pow2_lt_inv a b : pow2 a < pow2 b -> (a < b)%Z.
Proof. intros H. unfold pow2 in H. apply Qpower_lt_compat_l_inv in H; [exact H | reflexivity]. Qed.

Lemma pow2_Z e : (0 <= e)%Z -> pow2 e == inject_Z (2 ^ e).
Proof. intros H. unfold pow2. rewrite Zpower_Qpower by exact H. reflexivity. Qed.

Lemma pow2_0 : pow2 0 == 1.
Proof. reflexivity. Qed.

Lemma pow2_sub a b : pow2 (a - b) == pow2 a / pow2 b.
Proof.
  assert (Hb := pow2_pos b).
  setoid_replace (pow2 a) with (pow2 (a - b) * pow2 b).
  - field. lra.
  - rewrite <- pow2_add. replace (a - b + b)%Z with a by ring. reflexivity.
Qed.

(** ** [ilog2] *)

Lemma inject_Z_log2 n : (0 < n)%Z ->
  pow2 (Z.log2 n) <= inject_Z n /\ inject_Z n < pow2 (Z.log2 n + 1).
Proof.
  intros Hn. destruct (Z.log2_spec n Hn) as [H1 H2].
  assert (H0 := Z.log2_nonneg n).
  rewrite !pow2_Z by lia. split.
  - rewrite <- Zle_Qle. exact H1.
  - rewrite <- Zlt_Qlt. replace (Z.log2 n + 1)%Z with (Z.succ (Z.log2 n)) by lia. exact H2.
Qed.

Lemma ilog2_spec q : 0 < q -> pow2 (ilog2 q) <= q /\ q < pow2 (ilog2 q + 1).
Proof.
  intros Hq. unfold ilog2.
  set (k := (Z.log2 (Qnum q) - Z.log2 (Z.pos (Qden q)))%Z).
  assert (Hn : (0 < Qnum q)%Z).
  { destruct q as [n d]. unfold Qlt in Hq. simpl in *. lia. }
  destruct (inject_Z_log2 _ Hn) as [N1 N2].
  destruct (inject_Z_log2 _ (Pos2Z.is_pos (Qden q))) as [D1 D2].
  assert (Eq : q == inject_Z (Qnum q) / inject_Z (Z.pos (Qden q))).
  { destruct q as [n d]. simpl. rewrite (Qmake_Qdiv n d). reflexivity. }
  assert (Hd : 0 < inject_Z (Z.pos (Qden q))).
  { rewrite <- (Zlt_Qlt 0). apply Pos2Z.is_pos. }
  set (N := inject_Z (Qnum q)) in *. set (D := inject_Z (Z.pos (Qden q))) in *.
  assert (ED : q * D == N). { rewrite Eq. field. lra. }
  assert (Up : q < pow2 (k + 1)).
  { assert (E1 : pow2 (Z.log2 (Qnum q) + 1) == pow2 (k + 1) * pow2 (Z.log2 (Z.pos (Qden q)))).
    { rewrite <- pow2_add. unfold k. 
      replace (Z.log2 (Qnum q) - Z.log2 (Z.pos (Qden q)) + 1 + Z.log2 (Z.pos (Qden q)))%Z
        with (Z.log2 (Qnum q) + 1)%Z by ring. reflexivity. }
    assert (P := pow2_pos (k + 1)).
    assert (P' := pow2_pos (Z.log2 (Z.pos (Qden q)))).
    set (A := pow2 (k + 1)) in *. set (B := pow2 (Z.log2 (Z.pos (Qden q)))) in *.
    set (C := pow2 (Z.log2 (Qnum q) + 1)) in *. nra. }
  assert (Lo : pow2 (k - 1) <= q).
  { assert (E1 : pow2 (Z.log2 (Qnum q)) == pow2 (k - 1) * pow2 (Z.log2 (Z.pos (Qden q)) + 1)).
    { rewrite <- pow2_add. unfold k.
      replace (Z.log2 (Qnum q) - Z.log2 (Z.pos (Qden q)) - 1 + (Z.log2 (Z.pos (Qden q)) + 1))%Z
        with (Z.log2 (Qnum q)) by ring. reflexivity. }
    assert (P := pow2_pos (k - 1)).
    set (A := pow2 (k - 1)) in *. set (B := pow2 (Z.log2 (Z.pos (Qden q)) + 1)) in *.
    set (C := pow2 (Z.log2 (Qnum q))) in *. nra. }
  destruct (Qle_bool (pow2 k) q) eqn:E.
  - apply Qle_bool_iff in E. split; assumption.
  - replace (k - 1 + 1)%Z with k by ring. split; [exact Lo|].
    apply Qnot_le_lt. intros H. apply Qle_bool_iff in H. congruence.
Qed.

Lemma ilog2_unique q k : pow2 k <= q -> q < pow2 (k + 1) -> ilog2 q = k.
Proof.
  intros H1 H2.
  assert (Hq : 0 < q). { assert (P := pow2_pos k). lra. }
  destruct (ilog2_spec _ Hq) as [S1 S2].
  assert (A : (k < ilog2 q + 1)%Z). { apply pow2_lt_inv. lra. }
  assert (B : (ilog2 q < k + 1)%Z). { apply pow2_lt_inv. lra. }
  lia.
Qed.

Lemma ilog2_mono x y : 0 < x -> x <= y -> (ilog2 x <= ilog2 y)%Z.
Proof.
  intros Hx Hxy.
  destruct (ilog2_spec _ Hx) as [S1 S2].
  assert (Hy : 0 < y) by lra.
  destruct (ilog2_spec _ Hy) as [T1 T2].
  assert (A : (ilog2 x < ilog2 y + 1)%Z). { apply pow2_lt_inv. lra. }
  lia.
Qed.

(** ** [rne] *)

Lemma rne_cases q :
  let f := Qfloor q in
  (q - inject_Z f < 1 # 2 /\ rne q = f) \/
  (q - inject_Z f > 1 # 2 /\ rne q = (f + 1)%Z) \/
  (q - inject_Z f == 1 # 2 /\ rne q = if Z.even f then f else (f + 1)%Z).
Proof.
  intros f. unfold rne. fold f.
  destruct (q - inject_Z f ?= 1 # 2) eqn:E.
  - right; right. split; [apply Qeq_alt; exact E | reflexivity].
  - left. split; [apply Qlt_alt; exact E | reflexivity].
  - right; left. split; [apply Qgt_alt; exact E | reflexivity].
Qed.

Lemma Qfloor_bounds q : inject_Z (Qfloor q) <= q /\ q < inject_Z (Qfloor q) + 1.
Proof.
  split; [apply Qfloor_le|].
  assert (H := Qlt_floor q). rewrite inject_Z_plus in H. exact H.
Qed.

Lemma rne_upper q : inject_Z (rne q) <= q + (1 # 2).
Proof.
  destruct (Qfloor_bounds q) as [F1 F2].
  destruct (rne_cases q) as [[H E]|[[H E]|[H E]]]; rewrite E.
  - lra.
  - rewrite inject_Z_plus. change (inject_Z 1) with 1. lra.
  - destruct (Z.even (Qfloor q)); [lra|].
    rewrite inject_Z_plus. change (inject_Z 1) with 1. lra.
Qed.

Lemma rne_lower q : q - (1 # 2) <= inject_Z (rne q).
Proof.
  destruct (Qfloor_bounds q) as [F1 F2].
  destruct (rne_cases q) as [[H E]|[[H E]|[H E]]]; rewrite E.
  - lra.
  - rewrite inject_Z_plus. change (inject_Z 1) with 1. lra.
  - destruct (Z.even (Qfloor q)); [lra|].
    rewrite inject_Z_plus. change (inject_Z 1) with 1. lra.
Qed.

Lemma rne_floor_le q : (Qfloor q <= rne q <= Qfloor q + 1)%Z.
Proof.
  destruct (rne_cases q) as [[H E]|[[H E]|[H E]]]; rewrite E; try lia.
  destruct (Z.even (Qfloor q)); lia.
Qed.

Lemma rne_mono x y : x <= y -> (rne x <= rne y)%Z.
Proof.
  intros Hxy.
  assert (Hf := Qfloor_resp_le _ _ Hxy).
  destruct (Z.eq_dec (Qfloor x) (Qfloor y)) as [Ef|Nf].
  - destruct (rne_cases x) as [[H E]|[[H E]|[H E]]];
    destruct (rne_cases y) as [[H' E']|[[H' E']|[H' E']]];
    rewrite E, E'; rewrite <- ?Ef in *; try lia; try lra;
    destruct (Z.even (Qfloor x)); lia.
  - assert (A := rne_floor_le x). assert (B := rne_floor_le y). lia.
Qed.

Lemma rne_Z n : rne (inject_Z n) = n.
Proof.
  unfold rne. rewrite Qfloor_Z.
  assert (E : (inject_Z n - inject_Z n ?= 1 # 2) = Lt).
  { rewrite <- Qlt_alt. lra. }
  rewrite E. reflexivity.
Qed.

Lemma rne_comp x y : x == y -> rne x = rne y.
Proof.
  intros H. apply Z.le_antisymm; apply rne_mono; lra.
Qed.

Lemma rne_le_Z x n : x <= inject_Z n -> (rne x <= n)%Z.
Proof. intros H. rewrite <- (rne_Z n). apply rne_mono. exact H. Qed.

Lemma rne_ge_Z x n : inject_Z n <= x -> (n <= rne x)%Z.
Proof. intros H. rewrite <- (rne_Z n). apply rne_mono. exact H. Qed.

(** ** [rnd_pos] *)

Lemma ulp_exp_mono x y : 0 < x -> x <= y -> (ulp_exp x <= ulp_exp y)%Z.
Proof. intros Hx Hxy. unfold ulp_exp. assert (H := ilog2_mono _ _ Hx Hxy). lia. Qed.

Lemma rnd_pos_nonneg q : 0 < q -> 0 <= rnd_pos q.
Proof.
  intros Hq. unfold rnd_pos.
  assert (P := pow2_pos (ulp_exp q)).
  assert (H : (0 <= rne (q / pow2 (ulp_exp q)))%Z).
  { apply rne_ge_Z. apply Qle_shift_div_l; [exact P|]. change (inject_Z 0) with 0. lra. }
  apply Qmult_le_0_compat; [|lra].
  rewrite (Zle_Qle 0) in H. exact H.
Qed.

(** Below a power of two that the grid of [x] contains, [rnd_pos x] stays below it. *)
Lemma rnd_pos_le_pow2 x k : 0 < x -> x <= pow2 k -> (ulp_exp x <= k)%Z -> rnd_pos x <= pow2 k.
Proof.
  intros Hx Hxk Hk. unfold rnd_pos. set (e := ulp_exp x) in *.
  assert (P := pow2_pos e).
  assert (E : pow2 k == inject_Z (2 ^ (k - e)) * pow2 e).
  { rewrite <- pow2_Z by lia. rewrite <- pow2_add. replace (k - e + e)%Z with k by ring. reflexivity. }
  rewrite E. apply Qmult_le_compat_r; [|lra].
  rewrite <- Zle_Qle. apply rne_le_Z.
  apply Qle_shift_div_r; [exact P|]. rewrite <- E. exact Hxk.
Qed.

Lemma rnd_pos_ge_pow2 x k : 0 < x -> pow2 k <= x -> (ulp_exp x <= k)%Z -> pow2 k <= rnd_pos x.
Proof.
  intros Hx Hxk Hk. unfold rnd_pos. set (e := ulp_exp x) in *.
  assert (P := pow2_pos e).
  assert (E : pow2 k == inject_Z (2 ^ (k - e)) * pow2 e).
  { rewrite <- pow2_Z by lia. rewrite <- pow2_add. replace (k - e + e)%Z with k by ring. reflexivity. }
  rewrite E. apply Qmult_le_compat_r; [|lra].
  rewrite <- Zle_Qle. apply rne_ge_Z.
  apply Qle_shift_div_l; [exact P|]. rewrite <- E. exact Hxk.
Qed.

Lemma rnd_pos_mono x y : 0 < x -> x <= y -> rnd_pos x <= rnd_pos y.
Proof.
  intros Hx Hxy.
  assert (Hy : 0 < y) by lra.
  assert (He := ulp_exp_mono _ _ Hx Hxy).
  destruct (Z.eq_dec (ulp_exp x) (ulp_exp y)) as [Ee|Ne].
  - unfold rnd_pos. rewrite Ee. set (e := ulp_exp y).
    assert (P := pow2_pos e).
    apply Qmult_le_compat_r; [|lra].
    rewrite <- Zle_Qle. apply rne_mono.
    apply Qmult_le_compat_r; [exact Hxy|].
    apply Qlt_le_weak. apply Qinv_lt_0_compat. exact P.
  - assert (Lt : (ulp_exp x < ulp_exp y)%Z) by lia.
    destruct (ilog2_spec _ Hx) as [X1 X2]. destruct (ilog2_spec _ Hy) as [Y1 Y2].
    unfold ulp_exp in Lt, He.
    set (k := ilog2 y) in *.
    apply Qle_trans with (pow2 k).
    + apply rnd_pos_le_pow2; [exact Hx| | unfold ulp_exp; lia].
      apply Qle_trans with (pow2 (ilog2 x + 1)); [lra|]. apply pow2_le. lia.
    + apply rnd_pos_ge_pow2; [exact Hy | exact Y1 | unfold ulp_exp; fold k; lia].
Qed.

(** ** [rnd] *)

Lemma rnd_comp x y : x == y -> rnd x = rnd y.
Proof. intros H. unfold rnd. rewrite (Qred_complete _ _ H). reflexivity. Qed.

Lemma rnd_canon x y : rnd x == rnd y -> rnd x = rnd y.
Proof.
  unfold rnd. intros H. apply Qred_complete.
  rewrite <- (Qred_correct (rnd_signed (Qred x))), <- (Qred_correct (rnd_signed (Qred y))). exact H.
Qed.

Lemma rnd_zero q : q == 0 -> rnd q == 0.
Proof. intros H. rewrite (rnd_comp _ _ H). reflexivity. Qed.

Lemma rnd_of_pos q : 0 < q -> rnd q == rnd_pos (Qred q) /\ 0 < Qred q /\ Qred q == q.
Proof.
  intros H. assert (R := Qred_correct q).
  assert (H' : 0 < Qred q) by lra.
  unfold rnd. rewrite (Qred_correct (rnd_signed (Qred q))). unfold rnd_signed.
  assert (E : (Qred q ?= 0) = Gt). { rewrite <- Qgt_alt. exact H'. }
  rewrite E. repeat split; [exact H' | exact R].
Qed.

Lemma rnd_of_neg q : q < 0 -> rnd q == - rnd_pos (- Qred q) /\ 0 < - Qred q /\ - Qred q == - q.
Proof.
  intros H. assert (R := Qred_correct q).
  assert (H' : Qred q < 0) by lra.
  unfold rnd. rewrite (Qred_correct (rnd_signed (Qred q))). unfold rnd_signed.
  assert (E : (Qred q ?= 0) = Lt). { rewrite <- Qlt_alt. exact H'. }
  rewrite E. repeat split; lra.
Qed.

Lemma rnd_nonneg q : 0 <= q -> 0 <= rnd q.
Proof.
  intros H. destruct (Qlt_le_dec 0 q) as [P|N].
  - destruct (rnd_of_pos _ P) as (E & P' & _). rewrite E. apply rnd_pos_nonneg. exact P'.
  - rewrite rnd_zero; lra.
Qed.

Lemma rnd_nonpos q : q <= 0 -> rnd q <= 0.
Proof.
  intros H. destruct (Qlt_le_dec q 0) as [P|N].
  - destruct (rnd_of_neg _ P) as (E & P' & _). rewrite E.
    assert (A := rnd_pos_nonneg _ P'). lra.
  - rewrite rnd_zero; lra.
Qed.

Lemma rnd_mono x y : x <= y -> rnd x <= rnd y.
Proof.
  intros H. destruct (Qlt_le_dec 0 x) as [Px|Nx].
  - assert (Py : 0 < y) by lra.
    destruct (rnd_of_pos _ Px) as (Ex & Px' & Rx). destruct (rnd_of_pos _ Py) as (Ey & Py' & Ry).
    rewrite Ex, Ey. apply rnd_pos_mono; lra.
  - destruct (Qlt_le_dec y 0) as [Ny|Py].
    + assert (Nx' : x < 0) by lra.
      destruct (rnd_of_neg _ Nx') as (Ex & Px' & Rx). destruct (rnd_of_neg _ Ny) as (Ey & Py' & Ry).
      rewrite Ex, Ey.
      assert (A : rnd_pos (- Qred y) <= rnd_pos (- Qred x)) by (apply rnd_pos_mono; lra).
      lra.
    + apply Qle_trans with 0; [apply rnd_nonpos; exact Nx | apply rnd_nonneg; exact Py].
Qed.

(** ** Representable values *)

Lemma ilog2_scaled m e : (0 < m)%Z -> ilog2 (inject_Z m * pow2 e) = (Z.log2 m + e)%Z.
Proof.
  intros Hm. destruct (inject_Z_log2 _ Hm) as [A B]. assert (P := pow2_pos e).
  apply ilog2_unique.
  - rewrite pow2_add. apply Qmult_le_compat_r; lra.
  - replace (Z.log2 m + e + 1)%Z with (Z.log2 m + 1 + e)%Z by ring.
    rewrite pow2_add. apply Qmult_lt_compat_r; lra.
Qed.

Lemma ilog2_comp x y : 0 < x -> x == y -> ilog2 x = ilog2 y.
Proof.
  intros Hx E. destruct (ilog2_spec _ Hx) as [A B].
  symmetry. apply ilog2_unique; lra.
Qed.

Lemma rnd_pos_representable x : 0 < x -> representable x -> rnd_pos x == x.
Proof.
  intros Hx (m & e & Hm & He & E).
  assert (P := pow2_pos e).
  assert (Hm' : (0 < m)%Z).
  { destruct (Z.eq_dec m 0) as [->|]; [|lia]. change (inject_Z 0) with 0 in E. lra. }
  assert (L : ilog2 x = (Z.log2 m + e)%Z).
  { rewrite (ilog2_comp _ _ Hx E). apply ilog2_scaled. exact Hm'. }
  assert (Lm : (Z.log2 m < 53)%Z). { apply Z.log2_lt_pow2; lia. }
  unfold rnd_pos, ulp_exp. rewrite L.
  set (u := Z.max (Z.log2 m + e - 52) (-1074)).
  assert (Hu : (u <= e)%Z) by (unfold u; lia).
  assert (Pu := pow2_pos u).
  assert (Ee : pow2 e == inject_Z (2 ^ (e - u)) * pow2 u).
  { rewrite <- pow2_Z by lia. rewrite <- pow2_add. replace (e - u + u)%Z with e by ring. reflexivity. }
  assert (D : x / pow2 u == inject_Z (m * 2 ^ (e - u))).
  { rewrite inject_Z_mult. rewrite E, Ee. field. lra. }
  rewrite (rne_comp _ _ D), rne_Z, inject_Z_mult, E, Ee. ring.
Qed.

Lemma rnd_pos_is_representable x : 0 < x -> representable (rnd_pos x).
Proof.
  intros Hx. destruct (ilog2_spec _ Hx) as [A B].
  unfold rnd_pos. set (u := ulp_exp x).
  assert (Hu : (-1074 <= u)%Z /\ (ilog2 x - 52 <= u)%Z) by (unfold u, ulp_exp; lia).
  assert (Pu := pow2_pos u).
  set (k := rne (x / pow2 u)).
  assert (K0 : (0 <= k)%Z).
  { apply rne_ge_Z. change (inject_Z 0) with 0. apply Qle_shift_div_l; lra. }
  assert (K1 : (k <= 2 ^ 53)%Z).
  { apply rne_le_Z. apply Qle_shift_div_r; [exact Pu|].
    rewrite <- pow2_Z by lia. rewrite <- pow2_add.
    apply Qle_trans with (pow2 (ilog2 x + 1)); [lra | apply pow2_le; lia]. }
  destruct (Z.eq_dec k (2 ^ 53)) as [E|N].
  - exists (2 ^ 52)%Z, (u + 1)%Z. split; [lia|]. split; [lia|].
    rewrite E. rewrite pow2_add. change (pow2 1) with 2.
    change (2 ^ 53)%Z with (2 ^ 52 * 2)%Z. rewrite inject_Z_mult. change (inject_Z 2) with 2. ring.
  - exists k, u. split; [lia|]. split; [lia|]. reflexivity.
Qed.

Lemma rnd_representable x : 0 <= x -> representable x -> rnd x = Qred x.
Proof.
  intros Hx R.
  assert (C : rnd x == x).
  { destruct (Qlt_le_dec 0 x) as [P|N].
    - destruct (rnd_of_pos _ P) as (E & P' & Rq). rewrite E.
      rewrite rnd_pos_representable; [exact Rq | exact P' |].
      destruct R as (m & e & Hm & He & Em). exists m, e. split; [lia|]. split; [lia|]. lra.
    - rewrite rnd_zero; lra. }
  unfold rnd in *. apply Qred_complete.
  rewrite <- (Qred_correct (rnd_signed (Qred x))). exact C.
Qed.

Lemma rnd_is_representable x : 0 <= x -> representable (rnd x).
Proof.
  intros Hx. destruct (Qlt_le_dec 0 x) as [P|N].
  - destruct (rnd_of_pos _ P) as (E & P' & Rq).
    destruct (rnd_pos_is_representable _ P') as (m & e & Hm & He & Em).
    exists m, e. split; [lia|]. split; [lia|]. lra.
  - exists 0%Z, 0%Z. split; [lia|]. split; [lia|]. rewrite rnd_zero; [reflexivity | lra].
Qed.

(** Rounding a value that is already a float changes nothing. *)
Lemma rnd_idem x : 0 <= x -> rnd (rnd x) = rnd x.
Proof.
  intros Hx. apply rnd_canon.
  rewrite (rnd_representable _ (rnd_nonneg _ Hx) (rnd_is_representable _ Hx)).
  rewrite Qred_correct. reflexivity.
Qed.

(** ** The rounding error on the unit interval *)

Lemma rnd_error_unit z : 0 <= z -> z <= 1 -> rnd z <= z + pow2 (-54).
Proof.
  intros H0 H1. assert (P54 := pow2_pos (-54)).
  destruct (Qlt_le_dec 0 z) as [P|N]; [|rewrite rnd_zero; lra].
  destruct (Qlt_le_dec z 1) as [L|G].
  - destruct (rnd_of_pos _ P) as (E & P' & Rq). rewrite E.
    set (q := Qred z) in *.
    destruct (ilog2_spec _ P') as [A B].
    assert (K : (ilog2 q < 0)%Z). { apply pow2_lt_inv. rewrite pow2_0. lra. }
    unfold rnd_pos. set (u := ulp_exp q).
    assert (Hu : (u <= -53)%Z) by (unfold u, ulp_exp; lia).
    assert (Pu := pow2_pos u).
    assert (U := rne_upper (q / pow2 u)).
    assert (M : inject_Z (rne (q / pow2 u)) * pow2 u <= (q / pow2 u + (1 # 2)) * pow2 u).
    { apply Qmult_le_compat_r; lra. }
    assert (S : (q / pow2 u + (1 # 2)) * pow2 u == q + pow2 (u - 1)).
    { rewrite pow2_sub. change (pow2 1) with 2. field. lra. }
    assert (T : pow2 (u - 1) <= pow2 (-54)) by (apply pow2_le; lia).
    lra.
  - assert (E : z == 1) by lra. rewrite (rnd_comp _ _ E). 
    replace (rnd 1) with 1 by (vm_compute; reflexivity). lra.
Qed.

Local Close Scope Q_scope.

(** On the quotients and on the run below, [rnd] and the processor's
    binary64 arithmetic give the same values. *)
Lemma rnd_agrees_with_binary64 :
  forallb Hardware.check_quotient Hardware.quotients = true /\
  forallb Hardware.check_operations Hardware.operands = true /\
  Hardware.check_underflow 20 (Hardware.of_Z 3) (of_int 3) = true /\
  Hardware.martha = true.
Proof. repeat split; vm_compute; reflexivity. Qed.

(** * Strings and matching *)

(** ** Strings: membership, [index] and slices *)

Lemma contains_In s l : contains s l = true <-> In l s.
Proof.
  induction s as [|c s IH]; simpl.
  - split; [discriminate | tauto].
  - rewrite orb_true_iff, IH, Ascii.eqb_eq. tauto.
Qed.

Lemma slice_incl s a b l : In l (slice s a b) -> In l s.
Proof.
  unfold slice. intros H. apply In_nth_error in H. destruct H as [n Hn].
  rewrite nth_error_firstn in Hn. destruct (n <? b - a); [|discriminate].
  rewrite nth_error_skipn in Hn. eapply nth_error_In. exact Hn.
Qed.

Lemma contains_slice s a b p l :
  nth_error s p = Some l -> a <= p -> p < b -> contains (slice s a b) l = true.
Proof.
  intros Hp Ha Hb. apply contains_In. unfold slice.
  assert (E : nth_error (firstn (b - a) (skipn a s)) (p - a) = Some l).
  { rewrite nth_error_firstn.
    replace (p - a <? b - a) with true by (symmetry; apply Nat.ltb_lt; lia).
    rewrite nth_error_skipn. replace (a + (p - a)) with p by lia. exact Hp. }
  eapply nth_error_In. exact E.
Qed.

(** [index] finds the first occurrence whenever there is one. *)
Lemma index_first s l p :
  nth_error s p = Some l ->
  exists k, index s l = Return k /\ k <= p /\ nth_error s k = Some l.
Proof.
  revert p. induction s as [|c s IH]; intros p Hp.
  - destruct p; discriminate.
  - simpl. destruct (Ascii.eqb c l) eqn:E.
    + apply Ascii.eqb_eq in E. subst c. exists 0. repeat split; lia.
    + destruct p as [|p].
      * simpl in Hp. injection Hp as ->. rewrite Ascii.eqb_refl in E. discriminate.
      * simpl in Hp. destruct (IH p Hp) as (k & Ek & Lk & Nk).
        exists (S k). rewrite Ek. simpl. repeat split; [lia | exact Nk].
Qed.

Lemma index_In s l : In l s -> exists k, index s l = Return k /\ nth_error s k = Some l.
Proof.
  intros H. apply In_nth_error in H. destruct H as [p Hp].
  destruct (index_first _ _ _ Hp) as (k & Ek & _ & Nk). exists k. split; assumption.
Qed.

Lemma nth_error_lt (s : str) k c : nth_error s k = Some c -> k < len s.
Proof. intros H. apply nth_error_Some. congruence. Qed.

Lemma consume_nth s k p : k < len s ->
  nth_error (consume s k) p = if p =? k then Some sentinel else nth_error s p.
Proof.
  intros H. unfold consume, slice, len in *. simpl skipn. rewrite Nat.sub_0_r.
  assert (L : List.length (firstn k s) = k) by (rewrite length_firstn; lia).
  destruct (Nat.eqb_spec p k) as [->|N].
  - rewrite nth_error_app2 by lia. rewrite L, Nat.sub_diag. reflexivity.
  - destruct (Nat.lt_ge_cases p k) as [Lt|Ge].
    + rewrite nth_error_app1 by lia. rewrite nth_error_firstn.
      replace (p <? k) with true by (symmetry; apply Nat.ltb_lt; lia). reflexivity.
    + rewrite nth_error_app2 by lia. rewrite L.
      replace (p - k) with (S (p - k - 1)) by lia. simpl.
      rewrite nth_error_skipn. f_equal. lia.
Qed.

(** ** [_get_matching_characters] returns, with at most one match for each
    character of [first] *)

Lemma matching_loop_spec limit rest : forall i common second,
  exists m, matching_loop limit i rest common second = Return m /\
            len common <= len m <= len common + len rest.
Proof.
  induction rest as [|l rest IH]; intros i common second; simpl.
  - exists common. split; [reflexivity | lia].
  - destruct (contains _ l) eqn:C.
    + apply contains_In in C. apply slice_incl in C.
      destruct (index_In _ _ C) as (k & Ek & Nk). rewrite Ek. simpl.
      destruct (IH (S i) (common ++ [l]) (slice second 0 k ++ sentinel :: skipn (k + 1) second))
        as (m & Em & Lm).
      exists m. split; [exact Em|]. unfold len in *. rewrite length_app in Lm. simpl in *. lia.
    + destruct (IH (S i) common second) as (m & Em & Lm).
      exists m. split; [exact Em|]. simpl in *. lia.
Qed.

Lemma _get_matching_characters_spec first second :
  exists m, _get_matching_characters first second = Return m /\ len m <= len first.
Proof.
  unfold _get_matching_characters.
  destruct (matching_loop_spec (Nat.min (len first) (len second) / 2) first 0 [] second)
    as (m & Em & Lm).
  exists m. split; [exact Em | simpl in Lm; lia].
Qed.

(** A string matched against itself: every character matches. *)
Lemma matching_loop_self limit rest : forall i common second,
  skipn i second = rest ->
  matching_loop limit i rest common second = Return (common ++ rest).
Proof.
  induction rest as [|l rest IH]; intros i common second Hs; simpl.
  - rewrite app_nil_r. reflexivity.
  - assert (Ni : nth_error second i = Some l).
    { rewrite <- (Nat.add_0_r i), <- nth_error_skipn, Hs. reflexivity. }
    assert (Li := nth_error_lt _ _ _ Ni).
    rewrite (contains_slice second (Nat.max 0 (i - limit)) _ i l); [| exact Ni| lia | lia].
    destruct (index_first _ _ _ Ni) as (k & Ek & Lk & Nk). rewrite Ek. simpl.
    change (slice second 0 k ++ sentinel :: skipn (k + 1) second) with (consume second k).
    rewrite IH.
    + rewrite <- app_assoc. reflexivity.
    + apply nth_error_ext. intros n.
      rewrite nth_error_skipn, consume_nth by lia.
      replace (S i + n =? k) with false by (symmetry; apply Nat.eqb_neq; lia).
      replace (S i + n) with (i + S n) by lia.
      rewrite <- nth_error_skipn, Hs. reflexivity.
Qed.

Lemma _get_matching_characters_self s : _get_matching_characters s s = Return s.
Proof. unfold _get_matching_characters. apply (matching_loop_self _ s 0 [] s). reflexivity. Qed.

(** ** [_transpositions] *)

Lemma _transpositions_le m1 m2 : _transpositions m1 m2 <= len m1.
Proof.
  unfold _transpositions.
  assert (A := filter_length_le (fun fs : ascii * ascii => negb (Ascii.eqb (fst fs) (snd fs))) (combine m1 m2)).
  rewrite length_combine in A.
  assert (B : forall n, n / 2 <= n).
  { intros n. apply Nat.Div0.div_le_upper_bound. lia. }
  specialize (B (List.length (filter (fun fs : ascii * ascii => negb (Ascii.eqb (fst fs) (snd fs))) (combine m1 m2)))).
  unfold len. lia.
Qed.

Lemma _transpositions_self m : _transpositions m m = 0.
Proof.
  unfold _transpositions.
  assert (E : filter (fun fs : ascii * ascii => negb (Ascii.eqb (fst fs) (snd fs))) (combine m m) = []).
  { induction m as [|c m IH]; simpl; [reflexivity|]. rewrite Ascii.eqb_refl. simpl. exact IH. }
  rewrite E. reflexivity.
Qed.

(** ** Float operations on the values the program meets *)

Lemma rnd_is_float x : (0 <= x)%Q -> is_float (rnd x).
Proof. intros H. apply rnd_idem. exact H. Qed.

Lemma lit_small : lit 0 = 0%Q /\ lit 1 = 1%Q /\ lit 3 = 3%Q /\ lit 100 = 100%Q.
Proof. vm_compute. repeat split. Qed.

Lemma rnd_le_const x c : (x <= c)%Q -> rnd c = c -> (rnd x <= c)%Q.
Proof. intros H E. rewrite <- E. apply rnd_mono. exact H. Qed.

Lemma of_int_mono a b : (a <= b)%Z -> (of_int a <= of_int b)%Q.
Proof. intros H. apply rnd_mono. rewrite <- Zle_Qle. exact H. Qed.

Lemma of_int_nonneg a : (0 <= a)%Z -> (0 <= of_int a)%Q.
Proof. intros H. apply (of_int_mono 0 a H). Qed.

Lemma of_int_ge_1 a : (1 <= a)%Z -> (1 <= of_int a)%Q.
Proof. intros H. apply (of_int_mono 1 a H). Qed.

Lemma of_int_le_const a c : (a <= c)%Z -> of_int c = inject_Z c -> (of_int a <= inject_Z c)%Q.
Proof. intros H E. rewrite <- E. apply of_int_mono. exact H. Qed.

Lemma fdiv_nonzero x y : ~ (y == 0)%Q -> fdiv x y = Return (rnd (x / y)).
Proof.
  intros H. unfold fdiv. destruct (Qeq_bool y 0) eqn:E; [|reflexivity].
  apply Qeq_bool_iff in E. contradiction.
Qed.

(** A quotient of two counts, the lesser over the greater, is a float in [0, 1]. *)
Lemma fdiv_ratio a b : (0 <= a <= b)%Z -> (1 <= b)%Z ->
  exists r, fdiv (of_int a) (of_int b) = Return r /\ (0 <= r <= 1)%Q /\ is_float r.
Proof.
  intros Ha Hb.
  assert (B := of_int_ge_1 b Hb).
  assert (A0 := of_int_nonneg a (proj1 Ha)).
  assert (AB := of_int_mono a b (proj2 Ha)).
  assert (Q0 : (0 <= of_int a / of_int b)%Q).
  { apply Qle_shift_div_l; lra. }
  assert (Q1 : (of_int a / of_int b <= 1)%Q).
  { apply Qle_shift_div_r; lra. }
  exists (rnd (of_int a / of_int b)). split; [|split; [split|]].
  - apply fdiv_nonzero. lra.
  - apply rnd_nonneg. exact Q0.
  - apply rnd_le_const; [exact Q1 | reflexivity].
  - apply rnd_is_float. exact Q0.
Qed.

(** ** [_score] returns a float in [0, 1] *)

Lemma _score_unfold first second :
  _score first second =
  if len second <? len first then score_of (lower second) (lower first)
  else score_of (lower first) (lower second).
Proof. unfold _score. destruct (len second <? len first); reflexivity. Qed.

Lemma score_of_spec shorter longer :
  exists j, score_of shorter longer = Return j /\ (0 <= j <= 1)%Q /\ is_float j.
Proof.
  unfold score_of.
  destruct (_get_matching_characters_spec shorter longer) as (m1 & E1 & L1).
  destruct (_get_matching_characters_spec longer shorter) as (m2 & E2 & L2).
  rewrite E1, E2. simpl.
  destruct ((len m1 =? 0) || (len m2 =? 0)) eqn:Z.
  - exists (lit 0). repeat split; vm_compute; congruence.
  - apply orb_false_iff in Z. destruct Z as [Z1 Z2].
    apply Nat.eqb_neq in Z1. apply Nat.eqb_neq in Z2.
    assert (T := _transpositions_le m1 m2).
    destruct (fdiv_ratio (Z.of_nat (len m1)) (Z.of_nat (len shorter))) as (x1 & F1 & R1 & _); [lia | lia |].
    destruct (fdiv_ratio (Z.of_nat (len m2)) (Z.of_nat (len longer))) as (x2 & F2 & R2 & _); [lia | lia |].
    destruct (fdiv_ratio (Z.of_nat (len m1) - Z.of_nat (_transpositions m1 m2)) (Z.of_nat (len m1)))
      as (x3 & F3 & R3 & _); [lia | lia |].
    rewrite F1, F2, F3. simpl.
    destruct lit_small as (_ & _ & L3 & _). rewrite L3.
    assert (S12 : (0 <= fadd x1 x2 <= 2)%Q).
    { unfold fadd. split; [apply rnd_nonneg; lra | apply rnd_le_const; [lra | reflexivity]]. }
    assert (S123 : (0 <= fadd (fadd x1 x2) x3 <= 3)%Q).
    { unfold fadd at 1. split; [apply rnd_nonneg; lra | apply rnd_le_const; [lra | reflexivity]]. }
    rewrite fdiv_nonzero by (apply Qnot_eq_sym, Qlt_not_eq; reflexivity).
    assert (D : (0 <= fadd (fadd x1 x2) x3 / 3 <= 1)%Q).
    { unfold Qdiv. change (/ 3)%Q with (1 # 3)%Q. lra. }
    eexists. split; [reflexivity|]. split; [split|].
    + apply rnd_nonneg. lra.
    + apply rnd_le_const; [lra | reflexivity].
    + apply rnd_is_float. lra.
Qed.

Lemma _score_spec first second :
  exists j, _score first second = Return j /\ (0 <= j <= 1)%Q /\ is_float j.
Proof. rewrite _score_unfold. destruct (len second <? len first); apply score_of_spec. Qed.

(** ** [_get_prefix] is the longest common prefix *)

Lemma common_prefix_self a : common_prefix a a = a.
Proof. induction a as [|x a IH]; simpl; [reflexivity|]. rewrite Ascii.eqb_refl, IH. reflexivity. Qed.

Lemma common_prefix_firstn a : forall b, firstn (len (common_prefix a b)) a = common_prefix a b.
Proof.
  induction a as [|x a IH]; intros [|y b]; simpl; try reflexivity.
  destruct (Ascii.eqb x y); simpl; [rewrite IH|]; reflexivity.
Qed.

Lemma common_prefix_nil_r a : common_prefix a [] = [].
Proof. destruct a; reflexivity. Qed.

Lemma getitem_app pa (x : ascii) a i : len pa = i -> getitem (pa ++ x :: a) i = Return x.
Proof.
  intros <-. unfold getitem, len. rewrite nth_error_app2 by lia. rewrite Nat.sub_diag. reflexivity.
Qed.

Lemma diff_loop_spec a : forall b pa pb M,
  len pa = len pb -> M = len pa + Nat.min (len a) (len b) ->
  diff_loop (pa ++ a) (pb ++ b) (len pa) (Nat.min (len a) (len b)) M
  = Return (Z.of_nat (len pa + len (common_prefix a b))).
Proof.
  induction a as [|x a IH]; intros b pa pb M Hp HM.
  - simpl in *. subst M. reflexivity.
  - destruct b as [|y b].
    + simpl in *. subst M. reflexivity.
    + simpl Nat.min. cbn [diff_loop].
      rewrite (getitem_app pa x a _ eq_refl), (getitem_app pb y b _ (eq_sym Hp)). simpl bind.
      simpl common_prefix.
      destruct (Ascii.eqb x y) eqn:E; simpl negb; cbv iota.
      * specialize (IH b (pa ++ [x]) (pb ++ [y]) M).
        unfold len in *. rewrite !length_app in IH. simpl in IH.
        rewrite <- !app_assoc in IH. simpl in IH.
        replace (List.length pa + 1) with (S (List.length pa)) in IH by lia.
        rewrite IH by (simpl in HM; lia). simpl. f_equal. lia.
      * simpl. f_equal. unfold len. lia.
Qed.

Lemma _get_prefix_spec first second : _get_prefix first second = Return (common_prefix first second).
Proof.
  unfold _get_prefix.
  destruct (len first =? 0) eqn:E1.
  { apply Nat.eqb_eq in E1. destruct first; [reflexivity | discriminate]. }
  destruct (len second =? 0) eqn:E2.
  { apply Nat.eqb_eq in E2. destruct second; [|discriminate]. simpl.
    rewrite common_prefix_nil_r. reflexivity. }
  simpl orb. cbv iota. unfold _get_diff_index, str_eqb.
  destruct (list_eq_dec ascii_dec first second) as [->|N].
  - simpl. rewrite common_prefix_self. reflexivity.
  - rewrite E1, E2. simpl orb. cbv iota.
    assert (D := diff_loop_spec first second [] [] _ eq_refl eq_refl).
    simpl in D. rewrite D. simpl bind.
    assert (P := common_prefix_firstn first second).
    destruct (common_prefix first second) as [|c cp] eqn:C.
    + reflexivity.
    + replace (Z.of_nat (len (c :: cp)) =? -1)%Z with false by (symmetry; apply Z.eqb_neq; lia).
      replace (Z.of_nat (len (c :: cp)) =? 0)%Z with false
        by (symmetry; apply Z.eqb_neq; unfold len; simpl; lia).
      rewrite Nat2Z.id. unfold slice. simpl skipn. rewrite Nat.sub_0_r, P. reflexivity.
Qed.

(** ** The Winkler branch *)

Lemma winkler_adjusted_two_decimals jaro scaling cl :
  winkler_adjusted jaro scaling cl =
  two_decimals (fadd jaro (fmul (fmul scaling (of_int (Z.of_nat cl))) (fsub (lit 1%Q) jaro))).
Proof. reflexivity. Qed.

Lemma div_100 x : (x / 100 == x * (1 # 100))%Q.
Proof. unfold Qdiv. reflexivity. Qed.

Lemma two_decimals_returns x : exists r, two_decimals x = Return r.
Proof.
  unfold two_decimals. destruct lit_small as (_ & _ & _ & L). rewrite L.
  rewrite fdiv_nonzero by (apply Qnot_eq_sym, Qlt_not_eq; reflexivity).
  eexists. reflexivity.
Qed.

Lemma two_decimals_mono x y r r' :
  (x <= y)%Q -> two_decimals x = Return r -> two_decimals y = Return r' -> (r <= r')%Q.
Proof.
  unfold two_decimals. destruct lit_small as (_ & _ & _ & L). rewrite L.
  rewrite !fdiv_nonzero by (apply Qnot_eq_sym, Qlt_not_eq; reflexivity).
  intros H E E'. injection E as <-. injection E' as <-.
  apply rnd_mono. rewrite !div_100.
  assert (A : (of_int (round (fmul x 100)) <= of_int (round (fmul y 100)))%Q).
  { apply of_int_mono. apply rne_mono. apply rnd_mono. lra. }
  lra.
Qed.

Lemma two_decimals_unit x r :
  (0 <= x <= 1)%Q -> two_decimals x = Return r -> (0 <= r <= 1)%Q.
Proof.
  unfold two_decimals. destruct lit_small as (_ & _ & _ & L). rewrite L.
  rewrite !fdiv_nonzero by (apply Qnot_eq_sym, Qlt_not_eq; reflexivity).
  intros H E. injection E as <-.
  assert (A : (0 <= fmul x 100 <= 100)%Q).
  { unfold fmul. split; [apply rnd_nonneg; lra | apply rnd_le_const; [lra | reflexivity]]. }
  assert (B : (0 <= round (fmul x 100%Q) <= 100)%Z).
  { unfold round. split; [apply rne_ge_Z | apply rne_le_Z]; apply A. }
  assert (C : (0 <= of_int (round (fmul x 100)) <= 100)%Q).
  { split; [apply of_int_nonneg; lia | apply (of_int_le_const _ 100); [lia | reflexivity]]. }
  split; [apply rnd_nonneg | apply rnd_le_const; [|reflexivity]]; rewrite div_100; lra.
Qed.

Lemma pow2_half_ulp : (pow2 (-54) == half_ulp)%Q.
Proof. vm_compute. reflexivity. Qed.

Lemma rnd_one_half_ulp : rnd (1 + half_ulp) = 1%Q.
Proof. vm_compute. reflexivity. Qed.

(** The value before the two-decimal rounding stays in [jaro, 1]. *)
Lemma adjusted_range jaro scaling cl :
  (0 <= jaro <= 1)%Q -> is_float jaro -> (0 <= scaling <= 1 # 4)%Q -> cl <= 4 ->
  let adjusted :=
    fadd jaro (fmul (fmul scaling (of_int (Z.of_nat cl))) (fsub (lit 1%Q) jaro)) in
  (jaro <= adjusted <= 1)%Q.
Proof.
  intros J F S C adjusted. subst adjusted.
  destruct lit_small as (_ & L1 & _ & _). rewrite L1.
  assert (N : (0 <= of_int (Z.of_nat cl) <= 4)%Q).
  { split; [apply of_int_nonneg; lia | apply (of_int_le_const _ 4); [lia | reflexivity]]. }
  set (n := of_int (Z.of_nat cl)) in *.
  assert (A : (0 <= fmul scaling n <= 1)%Q).
  { unfold fmul. split; [apply rnd_nonneg; nra | apply rnd_le_const; [nra | reflexivity]]. }
  set (a := fmul scaling n) in *.
  assert (B : (0 <= fsub 1 jaro <= 1 - jaro + half_ulp)%Q /\ is_float (fsub 1%Q jaro)).
  { unfold fsub. split; [split|].
    - apply rnd_nonneg. lra.
    - rewrite <- pow2_half_ulp. apply rnd_error_unit; lra.
    - apply rnd_is_float. lra. }
  destruct B as [B FB]. set (b := fsub 1%Q jaro) in *.
  assert (P : (0 <= fmul a b <= b)%Q).
  { unfold fmul. split; [apply rnd_nonneg; nra |].
    apply Qle_trans with (rnd b); [apply rnd_mono; nra | rewrite FB; apply Qle_refl]. }
  set (p := fmul a b) in *.
  unfold fadd. split.
  - apply Qle_trans with (rnd jaro); [rewrite F; apply Qle_refl | apply rnd_mono; lra].
  - apply Qle_trans with (rnd (1 + half_ulp)); [apply rnd_mono; lra|].
    rewrite rnd_one_half_ulp. apply Qle_refl.
Qed.

Lemma winkler_adjusted_range jaro scaling cl :
  (0 <= jaro <= 1)%Q -> is_float jaro -> (0 <= scaling <= 1 # 4)%Q -> cl <= 4 ->
  exists r, winkler_adjusted jaro scaling cl = Return r /\ (0 <= r <= 1)%Q.
Proof.
  intros J F S C. rewrite winkler_adjusted_two_decimals.
  assert (A := adjusted_range jaro scaling cl J F S C). cbv zeta in A.
  destruct (two_decimals_returns
    (fadd jaro (fmul (fmul scaling (of_int (Z.of_nat cl))) (fsub (lit 1%Q) jaro)))) as [r E].
  exists r. split; [exact E|]. apply (two_decimals_unit _ r) in E; [exact E | lra].
Qed.

(** * The entry points *)

Lemma truthy_str s : s <> [] -> truthy (PyStr s) = true.
Proof. destruct s; [congruence | reflexivity]. Qed.

Lemma get_jaro_distance_str a b winkler winkler_ajustment scaling :
  a <> [] -> b <> [] ->
  get_jaro_distance (PyStr a) (PyStr b) winkler winkler_ajustment scaling =
  (jaro <- _score a b ;;
   if winkler && winkler_ajustment
   then winkler_adjusted jaro scaling (Nat.min (len (common_prefix a b)) 4)
   else Return jaro).
Proof.
  intros Ha Hb. unfold get_jaro_distance.
  rewrite (truthy_str a Ha), (truthy_str b Hb). simpl.
  rewrite _get_prefix_spec.
  destruct (_score a b); reflexivity.
Qed.

(** C1: for non-empty strings [a] and [b] and a scaling factor in
    [0, 0.25], [get_jaro_distance] returns a value in [0.0, 1.0], with the
    Winkler adjustment and without it. *)
Theorem get_jaro_distance_range a b winkler winkler_ajustment scaling :
  a <> [] -> b <> [] -> (0 <= scaling <= 1 # 4)%Q ->
  exists r,
    get_jaro_distance (PyStr a) (PyStr b) winkler winkler_ajustment scaling = Return r /\
    (0 <= r <= 1)%Q.
Proof.
  intros Ha Hb Hs. rewrite (get_jaro_distance_str a b _ _ _ Ha Hb).
  destruct (_score_spec a b) as (jaro & E & J & F). rewrite E. simpl bind.
  destruct (winkler && winkler_ajustment).
  - apply winkler_adjusted_range; [exact J | exact F | exact Hs | apply Nat.le_min_r].
  - exists jaro. split; [reflexivity | exact J].
Qed.

Lemma get_jaro_distance_range_witness :
  exists r,
    get_jaro_distance (PyStr (py "MARTHA")) (PyStr (py "MARHTA")) true true default_scaling
    = Return r /\ (0 <= r <= 1)%Q.
Proof.
  apply (get_jaro_distance_range (py "MARTHA") (py "MARHTA") true true default_scaling).
  - discriminate.
  - discriminate.
  - vm_compute. split; discriminate.
Defined.

(** C2: [get_jaro_distance("MARTHA", "MARHTA")] with the default options
    returns the float [0.96]. *)
Theorem martha_marhta :
  get_jaro_distance (PyStr (py "MARTHA")) (PyStr (py "MARHTA")) true true default_scaling
  = Return (lit (96 # 100)).
Proof. vm_compute. reflexivity. Qed.

(** ** A string against itself *)

Lemma fdiv_self n : (1 <= n)%Z -> fdiv (of_int n) (of_int n) = Return 1%Q.
Proof.
  intros H. assert (P := of_int_ge_1 n H).
  rewrite fdiv_nonzero by lra. f_equal.
  assert (E : (of_int n / of_int n == 1)%Q) by (field; lra).
  rewrite (rnd_comp _ _ E). reflexivity.
Qed.

Lemma score_of_self s : s <> [] -> score_of s s = Return 1%Q.
Proof.
  intros H. unfold score_of. rewrite _get_matching_characters_self. simpl bind.
  assert (L : 1 <= len s) by (destruct s; [congruence | simpl; lia]).
  replace (len s =? 0) with false by (symmetry; apply Nat.eqb_neq; lia).
  simpl orb. cbv iota.
  rewrite _transpositions_self. rewrite Z.sub_0_r.
  rewrite fdiv_self by lia. simpl bind. vm_compute. reflexivity.
Qed.

Lemma lower_nonempty s : s <> [] -> lower s <> [].
Proof. destruct s; [congruence | discriminate]. Qed.

Lemma winkler_adjusted_one cl : cl <= 4 -> winkler_adjusted 1 default_scaling cl = Return 1%Q.
Proof.
  intros H.
  destruct cl as [|[|[|[|[|cl]]]]]; [vm_compute; reflexivity .. | lia].
Qed.

(** C5: [get_jaro_distance(s, s)] with the default parameters returns
    exactly [1.0] for every non-empty [s]. *)
Theorem get_jaro_distance_identity s :
  s <> [] -> get_jaro_distance (PyStr s) (PyStr s) true true default_scaling = Return 1%Q.
Proof.
  intros H. rewrite (get_jaro_distance_str s s _ _ _ H H).
  rewrite _score_unfold, Nat.ltb_irrefl, (score_of_self _ (lower_nonempty s H)).
  simpl bind. simpl andb. cbv iota.
  apply winkler_adjusted_one. apply Nat.le_min_r.
Qed.

Lemma get_jaro_distance_identity_witness :
  get_jaro_distance (PyStr (py "abc")) (PyStr (py "abc")) true true default_scaling = Return 1%Q.
Proof. apply (get_jaro_distance_identity (py "abc")). discriminate. Defined.

(** ** Symmetry *)

(** With two different lengths [_score] orders its arguments itself. *)
Lemma _score_symmetric_unequal_lengths a b :
  len a <> len b -> _score a b = _score b a.
Proof.
  intros H. rewrite !_score_unfold.
  destruct (Nat.ltb_spec (len b) (len a)) as [L|L];
    destruct (Nat.ltb_spec (len a) (len b)) as [L'|L']; try reflexivity; lia.
Qed.

(** C3: the raw Jaro score at a pair of strings of equal length where it is
    not symmetric: [_score("babaa", "aaabb")] is below
    [_score("aaabb", "babaa")]. *)
Theorem score_not_symmetric :
  exists x y, _score (py "babaa") (py "aaabb") = Return x /\
              _score (py "aaabb") (py "babaa") = Return y /\
              len (py "babaa") = len (py "aaabb") /\
              (x < y)%Q.
Proof.
  eexists. eexists. split; [vm_compute; reflexivity|]. split; [vm_compute; reflexivity|].
  split; [reflexivity|]. vm_compute. reflexivity.
Qed.

(** ** The Winkler adjustment and the raw score *)

(** C6, as stated, fails: two strings with a non-zero raw score and the
    common prefix ["a"] whose adjusted, rounded result is below the raw
    score. *)
Lemma winkler_below_raw_jaro :
  exists jaro r,
    _score a17 b17 = Return jaro /\ ~ (jaro == 0)%Q /\
    common_prefix a17 b17 = py "a" /\
    get_jaro_distance (PyStr a17) (PyStr b17) true true default_scaling = Return r /\
    (r < jaro)%Q.
Proof.
  eexists. eexists. split; [vm_compute; reflexivity|].
  split; [vm_compute; discriminate|]. split; [reflexivity|].
  split; [vm_compute; reflexivity|]. vm_compute. reflexivity.
Qed.

Lemma default_scaling_range : (0 <= default_scaling <= 1 # 4)%Q.
Proof. vm_compute. split; discriminate. Qed.

(** C6, amended: the Winkler-adjusted result of two non-empty strings is at
    least the raw Jaro score rounded to two decimals,
    [round(jaro * 100.0) / 100.0]. *)
Theorem winkler_at_least_two_decimals_of_jaro a b :
  a <> [] -> b <> [] ->
  exists jaro r r',
    _score a b = Return jaro /\
    get_jaro_distance (PyStr a) (PyStr b) true true default_scaling = Return r /\
    two_decimals jaro = Return r' /\
    (r' <= r)%Q /\
    (jaro <= fadd jaro (fmul (fmul default_scaling
                                (of_int (Z.of_nat (Nat.min (len (common_prefix a b)) 4))))
                          (fsub (lit 1%Q) jaro)))%Q.
Proof.
  intros Ha Hb. rewrite (get_jaro_distance_str a b _ _ _ Ha Hb).
  destruct (_score_spec a b) as (jaro & E & J & F). rewrite E. simpl bind. simpl andb. cbv iota.
  set (cl := Nat.min (len (common_prefix a b)) 4).
  assert (A := adjusted_range jaro default_scaling cl J F default_scaling_range (Nat.le_min_r _ _)).
  cbv zeta in A. rewrite winkler_adjusted_two_decimals.
  destruct (two_decimals_returns jaro) as [r' E'].
  destruct (two_decimals_returns
    (fadd jaro (fmul (fmul default_scaling (of_int (Z.of_nat cl))) (fsub (lit 1%Q) jaro)))) as [r Er].
  exists jaro, r, r'. split; [reflexivity|]. split; [exact Er|]. split; [exact E'|].
  split; [apply (two_decimals_mono _ _ _ _ (proj1 A) E' Er) | exact (proj1 A)].
Qed.

Lemma winkler_at_least_two_decimals_of_jaro_witness :
  exists jaro r r',
    _score a17 b17 = Return jaro /\
    get_jaro_distance (PyStr a17) (PyStr b17) true true default_scaling = Return r /\
    two_decimals jaro = Return r' /\
    (r' <= r)%Q /\
    (jaro <= fadd jaro (fmul (fmul default_scaling
                                (of_int (Z.of_nat (Nat.min (len (common_prefix a17 b17)) 4))))
                          (fsub (lit 1%Q) jaro)))%Q.
Proof. apply (winkler_at_least_two_decimals_of_jaro a17 b17); discriminate. Defined.

(** ** Consumed positions *)

(** [matching_steps] is the loop of the source with its trace. *)
Lemma matching_loop_steps limit rest : forall i common consumed second,
  matching_loop limit i rest common second =
  (x <- matching_steps limit i rest common consumed second ;; Return (fst (fst x))).
Proof.
  induction rest as [|l rest IH]; intros i common consumed second; simpl.
  - reflexivity.
  - destruct (contains _ l).
    + destruct (index second l) as [k|e]; simpl; [|reflexivity]. apply IH.
    + apply IH.
Qed.

Lemma matching_steps_once limit rest : forall i common consumed second,
  ~ In sentinel rest ->
  List.length consumed = len common ->
  NoDup consumed ->
  Forall (fun k => nth_error second k = Some sentinel) consumed ->
  exists m ks w,
    matching_steps limit i rest common consumed second = Return (m, ks, w) /\
    List.length ks = len m /\ NoDup ks /\
    Forall (fun k => nth_error w k = Some sentinel) ks.
Proof.
  induction rest as [|l rest IH]; intros i common consumed second Hs Hl Hn Hf; simpl.
  - exists common, consumed, second. repeat split; assumption.
  - assert (Hl' : l <> sentinel) by (intros ->; apply Hs; left; reflexivity).
    assert (Hs' : ~ In sentinel rest) by (intros H; apply Hs; right; exact H).
    destruct (contains _ l) eqn:C; [|apply IH; assumption].
    apply contains_In in C. apply slice_incl in C.
    destruct (index_In _ _ C) as (k & Ek & Nk). rewrite Ek. simpl bind.
    change (slice second 0 k ++ sentinel :: skipn (k + 1) second) with (consume second k).
    assert (Lk := nth_error_lt _ _ _ Nk).
    assert (Fresh : ~ In k consumed).
    { intros H. rewrite Forall_forall in Hf. specialize (Hf k H). congruence. }
    apply IH.
    + exact Hs'.
    + unfold len in *. rewrite !length_app. simpl. lia.
    + apply NoDup_app; [exact Hn | constructor; [intros [] | constructor] |].
      intros x Hx [<-|[]]. contradiction.
    + apply Forall_app. split.
      * rewrite Forall_forall in *. intros x Hx. rewrite consume_nth by exact Lk.
        destruct (x =? k); [reflexivity | apply Hf; exact Hx].
      * constructor; [|constructor]. rewrite consume_nth by exact Lk.
        rewrite Nat.eqb_refl. reflexivity.
Qed.

(** C4, as stated, fails: matching ["a*"] against ["ab"] consumes position 0
    of the second string twice, the sentinel written there being matched by
    the ["*"] of the first string. *)
Lemma consumed_twice : ~ consumed_once (py "a*") (py "ab").
Proof.
  intros (m & ks & w & E & _ & _ & N & _).
  vm_compute in E. injection E as _ <- _.
  inversion N as [|x l H _]. apply H. left. reflexivity.
Qed.

(** C4, amended: when [first] holds no ["*"], every position that
    [_get_matching_characters(first, second)] consumes holds ["*"] when the
    loop ends and is consumed by one match only. *)
Theorem consumed_once_without_sentinel first second :
  ~ In sentinel first -> consumed_once first second.
Proof.
  intros H. unfold consumed_once.
  destruct (matching_steps_once (Nat.min (len first) (len second) / 2) first 0 [] [] second H
              eq_refl (NoDup_nil _) (Forall_nil _)) as (m & ks & w & E & L & N & F).
  exists m, ks, w. repeat split; try assumption.
  unfold _get_matching_characters. rewrite (matching_loop_steps _ _ _ _ []), E. reflexivity.
Qed.

Lemma consumed_once_without_sentinel_witness : consumed_once (py "MARTHA") (py "MARHTA").
Proof.
  apply (consumed_once_without_sentinel (py "MARTHA") (py "MARHTA")).
  vm_compute. intuition discriminate.
Defined.

(** ** Invalid input *)

Lemma get_jaro_distance_returns a b winkler winkler_ajustment scaling :
  a <> [] -> b <> [] ->
  exists r, get_jaro_distance (PyStr a) (PyStr b) winkler winkler_ajustment scaling = Return r.
Proof.
  intros Ha Hb. rewrite (get_jaro_distance_str a b _ _ _ Ha Hb).
  destruct (_score_spec a b) as (jaro & E & _). rewrite E. simpl bind.
  destruct (winkler && winkler_ajustment).
  - rewrite winkler_adjusted_two_decimals. apply two_decimals_returns.
  - exists jaro. reflexivity.
Qed.

Lemma get_jaro_distance_invalid first second winkler winkler_ajustment scaling :
  empty_or_none first \/ empty_or_none second ->
  get_jaro_distance first second winkler winkler_ajustment scaling
  = Raise (invalid_input first second).
Proof.
  unfold get_jaro_distance.
  intros [[-> | ->] | [-> | ->]]; try reflexivity;
    destruct (truthy first); reflexivity.
Qed.

(** C7: on text or absent arguments, [get_jaro_distance] raises
    [JaroDistanceException] if and only if one of them is the empty string
    or [None]; [("", "test")] and [(None, "test")] raise it. *)
Theorem invalid_input_iff first second winkler winkler_ajustment scaling :
  text_or_none first -> text_or_none second ->
  ((exists message,
      get_jaro_distance first second winkler winkler_ajustment scaling
      = Raise (JaroDistanceException message))
   <-> (empty_or_none first \/ empty_or_none second)) /\
  get_jaro_distance (PyStr []) (PyStr (py "test")) winkler winkler_ajustment scaling
    = Raise (invalid_input (PyStr []) (PyStr (py "test"))) /\
  get_jaro_distance PyNone (PyStr (py "test")) winkler winkler_ajustment scaling
    = Raise (invalid_input PyNone (PyStr (py "test"))).
Proof.
  intros T1 T2. split; [|split; reflexivity]. split.
  - intros [message E].
    destruct first as [|a| |]; try contradiction; [left; left; reflexivity|].
    destruct second as [|b| |]; try contradiction; [right; left; reflexivity|].
    destruct a as [|x a]; [left; right; reflexivity|].
    destruct b as [|y b]; [right; right; reflexivity|].
    destruct (get_jaro_distance_returns (x :: a) (y :: b) winkler winkler_ajustment scaling)
      as [r R]; try discriminate.
    rewrite R in E. discriminate.
  - intros H. rewrite (get_jaro_distance_invalid _ _ _ _ _ H).
    eexists. reflexivity.
Qed.

Lemma invalid_input_iff_witness :
  ((exists message,
      get_jaro_distance (PyStr (py "abc")) PyNone true true default_scaling
      = Raise (JaroDistanceException message))
   <-> (empty_or_none (PyStr (py "abc")) \/ empty_or_none PyNone)) /\
  get_jaro_distance (PyStr []) (PyStr (py "test")) true true default_scaling
    = Raise (invalid_input (PyStr []) (PyStr (py "test"))) /\
  get_jaro_distance PyNone (PyStr (py "test")) true true default_scaling
    = Raise (invalid_input PyNone (PyStr (py "test"))).
Proof.
  apply (invalid_input_iff (PyStr (py "abc")) PyNone true true default_scaling); exact I.
Defined.

(** ** The batch entry point *)

Lemma comprehension_Forall2 {A B : Type} (f : A -> result B) items : forall rs,
  comprehension f items = Return rs <-> Forall2 (fun i r => f i = Return r) items rs.
Proof.
  induction items as [|i items IH]; intros rs; simpl.
  - split.
    + intros E. injection E as <-. constructor.
    + intros H. inversion H. reflexivity.
  - split.
    + intros E. destruct (f i) as [y|e] eqn:Fi; [|discriminate]. simpl in E.
      destruct (comprehension f items) as [ys|e] eqn:C; [|discriminate]. simpl in E.
      injection E as <-. constructor; [exact Fi | apply IH; reflexivity].
    + intros H. inversion H as [|i' r items' rs' Fi Hrest]; subst.
      rewrite Fi. simpl. apply IH in Hrest. rewrite Hrest. reflexivity.
Qed.

Lemma comprehension_raise {A B : Type} (f : A -> result B) pre : forall i post e,
  Forall (fun j => exists r, f j = Return r) pre -> f i = Raise e ->
  comprehension f (pre ++ i :: post) = Raise e.
Proof.
  induction pre as [|j pre IH]; intros i post e Hpre Hi; simpl.
  - rewrite Hi. reflexivity.
  - inversion Hpre as [|j' pre' [r Hj] Hrest]; subst. rewrite Hj. simpl.
    rewrite (IH i post e Hrest Hi). reflexivity.
Qed.

(** C8: for a non-empty [a], [get_jaro_distance_array(a, cs)] returns the
    results of [get_jaro_distance(a, c)] for the candidates [c] of the list
    [cs], in order and as many; a candidate that is not a list is taken as
    the only one; the first empty or absent candidate ends the call with its
    invalid-input error. *)
Theorem get_jaro_distance_array_spec a winkler winkler_ajustment scaling :
  a <> [] ->
  let one c := get_jaro_distance (PyStr a) c winkler winkler_ajustment scaling in
  let all c := get_jaro_distance_array (PyStr a) c winkler winkler_ajustment scaling in
  (forall cs rs, all (PyList cs) = Return rs <->
                 Forall2 (fun c r => one c = Return r) cs rs) /\
  (forall cs, (0 <= scaling <= 1 # 4)%Q -> Forall nonempty_str cs ->
              exists rs, all (PyList cs) = Return rs /\ List.length rs = List.length cs) /\
  (forall c, (forall items, c <> PyList items) -> all c = (r <- one c ;; Return [r])) /\
  (forall pre c post,
     Forall (fun v => exists r, one v = Return r) pre -> empty_or_none c ->
     all (PyList (pre ++ c :: post)) = Raise (invalid_input (PyStr a) c)).
Proof.
  intros Ha one all. unfold all, get_jaro_distance_array. fold one.
  split; [|split; [|split]].
  - intros cs rs. apply comprehension_Forall2.
  - intros cs Hs Hcs.
    assert (Valid : forall c, nonempty_str c -> exists r, one c = Return r).
    { intros c (s & -> & Hc). apply get_jaro_distance_returns; assumption. }
    assert (E : exists rs, Forall2 (fun c r => one c = Return r) cs rs).
    { induction Hcs as [|c cs Hc _ [rs IH]].
      - exists []. constructor.
      - destruct (Valid c Hc) as [r Hr]. exists (r :: rs). constructor; assumption. }
    destruct E as [rs E]. exists rs. split.
    + apply comprehension_Forall2. exact E.
    + symmetry. apply (Forall2_length E).
  - intros c Hc. destruct c as [|s|items|items]; simpl;
      try (destruct (one _); reflexivity).
    exfalso. apply (Hc items). reflexivity.
  - intros pre c post Hpre Hc. apply comprehension_raise.
    + exact Hpre.
    + apply get_jaro_distance_invalid. right. exact Hc.
Qed.

Lemma get_jaro_distance_array_spec_witness :
  let one c := get_jaro_distance (PyStr (py "cat")) c true true default_scaling in
  let all c := get_jaro_distance_array (PyStr (py "cat")) c true true default_scaling in
  (forall cs rs, all (PyList cs) = Return rs <->
                 Forall2 (fun c r => one c = Return r) cs rs) /\
  (forall cs, (0 <= default_scaling <= 1 # 4)%Q -> Forall nonempty_str cs ->
              exists rs, all (PyList cs) = Return rs /\ List.length rs = List.length cs) /\
  (forall c, (forall items, c <> PyList items) -> all c = (r <- one c ;; Return [r])) /\
  (forall pre c post,
     Forall (fun v => exists r, one v = Return r) pre -> empty_or_none c ->
     all (PyList (pre ++ c :: post)) = Raise (invalid_input (PyStr (py "cat")) c)).
Proof.
  apply (get_jaro_distance_array_spec (py "cat") true true default_scaling). discriminate.
Defined.

(** C10: [get_jaro_distance_array] iterates its second argument only when
    it is a list; any other value, a tuple of candidates too, goes whole to
    [get_jaro_distance] as the one candidate. *)
Theorem only_a_list_is_iterated first second winkler winkler_ajustment scaling :
  let one c := get_jaro_distance first c winkler winkler_ajustment scaling in
  get_jaro_distance_array first second winkler winkler_ajustment scaling =
    match second with
    | PyList items => comprehension one items
    | _ => r <- one second ;; Return [r]
    end /\
  get_jaro_distance_array (PyStr (py "cat")) (PyTuple [PyStr (py "cat"); PyStr (py "bat")])
    winkler winkler_ajustment scaling = Raise AttributeError.
Proof.
  intros one. split; [|reflexivity].
  unfold get_jaro_distance_array. fold one.
  destruct second; simpl; try reflexivity; destruct (one _); reflexivity.
Qed.

(** ** Case *)

(** The score of two strings is that of two others with the same lowercased
    copies and the same order of lengths. *)
Lemma _score_of_lowercased first second first' second' :
  lower first' = lower first -> lower second' = lower second ->
  (len second' <? len first') = (len second <? len first) ->
  _score first' second' = _score first second.
Proof. intros E1 E2 L. rewrite !_score_unfold, E1, E2, L. reflexivity. Qed.

Lemma _get_prefix_first_differs x y a b : x <> y -> _get_prefix (x :: a) (y :: b) = Return [].
Proof.
  intros N. rewrite _get_prefix_spec. simpl.
  replace (Ascii.eqb x y) with false by (symmetry; apply Ascii.eqb_neq; exact N).
  reflexivity.
Qed.

(** C9: the prefix of the Winkler adjustment is the common prefix of the
    arguments as given, case included, capped at 4: a first character that
    differs, be it by case only, leaves no prefix. The raw score is computed
    on the lowercased copies, the shorter and the longer chosen by the
    lengths of the arguments as given, so it is the same for arguments that
    differ by case only. *)
Theorem prefix_on_originals_score_on_lowercase a b scaling :
  a <> [] -> b <> [] ->
  _get_prefix a b = Return (common_prefix a b) /\
  _get_prefix a a = Return a /\
  (forall x y a' b', x <> y -> _get_prefix (x :: a') (y :: b') = Return []) /\
  _score a b =
    (if len b <? len a then score_of (lower b) (lower a)
     else score_of (lower a) (lower b)) /\
  (forall a' b', lower a' = lower a -> lower b' = lower b ->
                 (len b' <? len a') = (len b <? len a) ->
                 _score a' b' = _score a b) /\
  get_jaro_distance (PyStr a) (PyStr b) true true scaling =
    (jaro <- _score a b ;;
     winkler_adjusted jaro scaling (Nat.min (len (common_prefix a b)) 4)) /\
  _get_prefix (py "Martha") (py "martha") = Return [] /\
  _score (py "Martha") (py "martha") = Return 1%Q.
Proof.
  intros Ha Hb. split; [apply _get_prefix_spec|].
  split; [rewrite _get_prefix_spec, common_prefix_self; reflexivity|].
  split; [intros x y a' b'; apply _get_prefix_first_differs|].
  split; [apply _score_unfold|].
  split; [intros a' b'; apply _score_of_lowercased|].
  split; [|split; vm_compute; reflexivity].
  rewrite (get_jaro_distance_str a b _ _ _ Ha Hb). reflexivity.
Qed.

Lemma prefix_on_originals_score_on_lowercase_witness :
  _get_prefix (py "DIXON") (py "DICKSONX") = Return (common_prefix (py "DIXON") (py "DICKSONX")) /\
  _get_prefix (py "DIXON") (py "DIXON") = Return (py "DIXON") /\
  (forall x y a' b', x <> y -> _get_prefix (x :: a') (y :: b') = Return []) /\
  _score (py "DIXON") (py "DICKSONX") =
    (if len (py "DICKSONX") <? len (py "DIXON")
     then score_of (lower (py "DICKSONX")) (lower (py "DIXON"))
     else score_of (lower (py "DIXON")) (lower (py "DICKSONX"))) /\
  (forall a' b', lower a' = lower (py "DIXON") -> lower b' = lower (py "DICKSONX") ->
                 (len b' <? len a') = (len (py "DICKSONX") <? len (py "DIXON")) ->
                 _score a' b' = _score (py "DIXON") (py "DICKSONX")) /\
  get_jaro_distance (PyStr (py "DIXON")) (PyStr (py "DICKSONX")) true true default_scaling =
    (jaro <- _score (py "DIXON") (py "DICKSONX") ;;
     winkler_adjusted jaro default_scaling
       (Nat.min (len (common_prefix (py "DIXON") (py "DICKSONX"))) 4)) /\
  _get_prefix (py "Martha") (py "martha") = Return [] /\
  _score (py "Martha") (py "martha") = Return 1%Q.
Proof.
  apply (prefix_on_originals_score_on_lowercase (py "DIXON") (py "DICKSONX") default_scaling);
    discriminate.
Defined.

(** * Further properties of the functions *)

(** ** More on [_get_matching_characters] *)

Lemma consume_In s k c : In c (consume s k) -> In c s \/ c = sentinel.
Proof.
  unfold consume. intros H. apply in_app_or in H. destruct H as [H|H].
  - left. apply (slice_incl _ _ _ _ H).
  - simpl in H. destruct H as [H|H]; [right; symmetry; exact H|].
    left. apply In_nth_error in H. destruct H as [n Hn].
    rewrite nth_error_skipn in Hn. eapply nth_error_In. exact Hn.
Qed.

Lemma matching_loop_subsequence limit rest : forall i common second m,
  matching_loop limit i rest common second = Return m ->
  exists m', m = common ++ m' /\ subsequence m' rest /\
             Forall (fun c => In c second \/ c = sentinel) m'.
Proof.
  induction rest as [|l rest IH]; intros i common second m; simpl.
  - intros E. injection E as <-. exists []. rewrite app_nil_r.
    split; [reflexivity|]. split; constructor.
  - destruct (contains _ l) eqn:C.
    + apply contains_In in C. apply slice_incl in C.
      destruct (index_In _ _ C) as (k & Ek & Nk). rewrite Ek. simpl bind.
      change (slice second 0 k ++ sentinel :: skipn (k + 1) second) with (consume second k).
      intros E. destruct (IH _ _ _ _ E) as (m' & -> & S & F).
      exists (l :: m'). rewrite <- app_assoc. split; [reflexivity|].
      split; [constructor; exact S|]. constructor; [left; exact C|].
      rewrite Forall_forall in *. intros c Hc.
      destruct (F c Hc) as [H|H]; [apply consume_In in H; exact H | right; exact H].
    + intros E. destruct (IH _ _ _ _ E) as (m' & -> & S & F).
      exists m'. split; [reflexivity|]. split; [constructor; exact S | exact F].
Qed.

(** X1: [_get_matching_characters] never raises: it returns a subsequence
    of [first], each character of which occurs in [second] or is ["*"]. *)
Theorem matching_characters_subsequence first second :
  exists m,
    _get_matching_characters first second = Return m /\
    subsequence m first /\
    Forall (fun c => In c second \/ c = sentinel) m.
Proof.
  destruct (_get_matching_characters_spec first second) as (m & E & _).
  exists m. split; [exact E|].
  unfold _get_matching_characters in E.
  destruct (matching_loop_subsequence _ _ _ _ _ _ E) as (m' & -> & S & F).
  split; assumption.
Qed.

Lemma matching_loop_disjoint limit rest : forall i common second,
  disjoint rest second -> matching_loop limit i rest common second = Return common.
Proof.
  induction rest as [|l rest IH]; intros i common second D; simpl.
  - reflexivity.
  - destruct (contains _ l) eqn:C.
    + apply contains_In in C. apply slice_incl in C.
      exfalso. apply (D l); [left; reflexivity | exact C].
    + apply IH. intros c Hc. apply D. right. exact Hc.
Qed.

Lemma disjoint_sym a b : disjoint a b -> disjoint b a.
Proof. intros D c Hb Ha. apply (D c Ha Hb). Qed.

Lemma score_of_disjoint shorter longer :
  disjoint shorter longer -> score_of shorter longer = Return 0%Q.
Proof.
  intros D. unfold score_of, _get_matching_characters.
  rewrite (matching_loop_disjoint _ _ _ _ _ D).
  rewrite (matching_loop_disjoint _ _ _ _ _ (disjoint_sym _ _ D)). reflexivity.
Qed.

Lemma common_prefix_disjoint a b :
  disjoint (lower a) (lower b) -> common_prefix a b = [].
Proof.
  intros D. destruct a as [|x a]; [reflexivity|]. destruct b as [|y b]; [reflexivity|].
  simpl. destruct (Ascii.eqb x y) eqn:E; [|reflexivity].
  apply Ascii.eqb_eq in E. subst y. exfalso.
  apply (D (lower_char x)); left; reflexivity.
Qed.

Lemma rnd_mult_0_r x : rnd (x * 0) = 0%Q.
Proof. assert (E : (x * 0 == 0)%Q) by ring. rewrite (rnd_comp _ _ E). reflexivity. Qed.

Lemma rnd_mult_0_l x : rnd (0 * x) = 0%Q.
Proof. assert (E : (0 * x == 0)%Q) by ring. rewrite (rnd_comp _ _ E). reflexivity. Qed.

Lemma winkler_adjusted_no_prefix scaling : winkler_adjusted 0 scaling 0 = Return 0%Q.
Proof.
  unfold winkler_adjusted.
  change (of_int (Z.of_nat 0)) with 0%Q.
  change (fmul scaling 0) with (rnd (scaling * 0)). rewrite rnd_mult_0_r.
  vm_compute. reflexivity.
Qed.

(** X3: two non-empty strings whose lowercased forms share no character
    have the raw score [0.0], and [get_jaro_distance] returns [0.0] for them
    with any flags and any finite scaling factor (a [float] here is finite:
    with an infinite or NaN scaling factor [round] raises). *)
Theorem disjoint_strings_score_zero a b winkler winkler_ajustment scaling :
  a <> [] -> b <> [] -> disjoint (lower a) (lower b) ->
  _score a b = Return 0%Q /\
  get_jaro_distance (PyStr a) (PyStr b) winkler winkler_ajustment scaling = Return 0%Q.
Proof.
  intros Ha Hb D.
  assert (S : _score a b = Return 0%Q).
  { rewrite _score_unfold. destruct (len b <? len a).
    - apply score_of_disjoint, disjoint_sym, D.
    - apply score_of_disjoint, D. }
  split; [exact S|].
  rewrite (get_jaro_distance_str a b _ _ _ Ha Hb), S. simpl bind.
  rewrite (common_prefix_disjoint a b D).
  destruct (winkler && winkler_ajustment); [apply winkler_adjusted_no_prefix | reflexivity].
Qed.

Lemma disjoint_strings_score_zero_witness :
  _score (py "abc") (py "XYZ") = Return 0%Q /\
  get_jaro_distance (PyStr (py "abc")) (PyStr (py "XYZ")) true true default_scaling = Return 0%Q.
Proof.
  apply (disjoint_strings_score_zero (py "abc") (py "XYZ") true true default_scaling).
  - discriminate.
  - discriminate.
  - intros c Ha Hb. vm_compute in Ha, Hb.
    repeat (destruct Ha as [Ha|Ha];
            [subst c; repeat (destruct Hb as [Hb|Hb]; [discriminate Hb|]); exact Hb|]).
    exact Ha.
Defined.

(** ** Strings alike but for case *)

Lemma winkler_adjusted_of_one scaling cl : winkler_adjusted 1 scaling cl = Return 1%Q.
Proof.
  unfold winkler_adjusted.
  change (fsub (lit 1) 1) with 0%Q.
  change (fmul (fmul scaling (of_int (Z.of_nat cl))) 0)
    with (rnd (fmul scaling (of_int (Z.of_nat cl)) * 0)).
  rewrite rnd_mult_0_r. vm_compute. reflexivity.
Qed.

(** X2: two non-empty strings that are equal once lowercased have the raw
    score [1.0], and [get_jaro_distance] returns [1.0] for them with any
    flags and any scaling factor in [0, 0.25]. *)
Theorem equal_ignoring_case_score_one a b winkler winkler_ajustment scaling :
  a <> [] -> lower a = lower b -> (0 <= scaling <= 1 # 4)%Q ->
  _score a b = Return 1%Q /\
  get_jaro_distance (PyStr a) (PyStr b) winkler winkler_ajustment scaling = Return 1%Q.
Proof.
  intros Ha E _.
  assert (Hb : b <> []) by (destruct a, b; try congruence; discriminate).
  assert (S : _score a b = Return 1%Q).
  { rewrite _score_unfold, E.
    destruct (len b <? len a); apply score_of_self, lower_nonempty, Hb. }
  split; [exact S|].
  rewrite (get_jaro_distance_str a b _ _ _ Ha Hb), S. simpl bind.
  destruct (winkler && winkler_ajustment); [apply winkler_adjusted_of_one | reflexivity].
Qed.

Lemma equal_ignoring_case_score_one_witness :
  _score (py "Martha") (py "MARTHA") = Return 1%Q /\
  get_jaro_distance (PyStr (py "Martha")) (PyStr (py "MARTHA")) true true default_scaling
  = Return 1%Q.
Proof.
  apply (equal_ignoring_case_score_one (py "Martha") (py "MARTHA") true true default_scaling).
  - discriminate.
  - reflexivity.
  - vm_compute. split; discriminate.
Defined.

(** ** [_transpositions] *)

Lemma mismatches_sym a : forall b,
  List.length (filter (fun fs : ascii * ascii => negb (Ascii.eqb (fst fs) (snd fs))) (combine a b))
  = List.length (filter (fun fs : ascii * ascii => negb (Ascii.eqb (fst fs) (snd fs))) (combine b a)).
Proof.
  induction a as [|x a IH]; intros [|y b]; try reflexivity.
  cbn [combine filter fst snd]. rewrite (Ascii.eqb_sym y x).
  destruct (Ascii.eqb x y); cbn [negb]; [apply IH | simpl; f_equal; apply IH].
Qed.

Lemma _transpositions_double_le first second :
  2 * _transpositions first second <= Nat.min (len first) (len second).
Proof.
  unfold _transpositions.
  set (differ := fun fs : ascii * ascii => negb (Ascii.eqb (fst fs) (snd fs))).
  assert (A := filter_length_le differ (combine first second)).
  rewrite length_combine in A. unfold len.
  assert (B := Nat.Div0.mul_div_le (List.length (filter differ (combine first second))) 2).
  lia.
Qed.

(** X4: [_transpositions] is symmetric, and twice its result is at most the
    length of the shorter argument. *)
Theorem transpositions_symmetric_bounded first second :
  _transpositions first second = _transpositions second first /\
  2 * _transpositions first second <= Nat.min (len first) (len second).
Proof.
  split; [|apply _transpositions_double_le].
  unfold _transpositions. rewrite mismatches_sym. reflexivity.
Qed.

(** ** [_get_diff_index] and [_get_prefix] *)

Lemma common_prefix_sym a : forall b, common_prefix a b = common_prefix b a.
Proof.
  induction a as [|x a IH]; intros [|y b]; simpl; try reflexivity.
  rewrite (Ascii.eqb_sym y x). destruct (Ascii.eqb x y) eqn:E; [|reflexivity].
  apply Ascii.eqb_eq in E. subst y. rewrite IH. reflexivity.
Qed.

Lemma common_prefix_length a : forall b,
  len (common_prefix a b) <= Nat.min (len a) (len b).
Proof.
  induction a as [|x a IH]; intros [|y b]; simpl; try lia.
  destruct (Ascii.eqb x y); simpl; [specialize (IH b); unfold len in *; lia | lia].
Qed.

Lemma common_prefix_next a : forall b x y,
  nth_error a (len (common_prefix a b)) = Some x ->
  nth_error b (len (common_prefix a b)) = Some y -> x <> y.
Proof.
  induction a as [|c a IH]; intros [|d b] x y; simpl; try discriminate.
  destruct (Ascii.eqb c d) eqn:E; simpl.
  - apply IH.
  - intros Hx Hy. injection Hx as <-. injection Hy as <-.
    apply Ascii.eqb_neq. exact E.
Qed.

Lemma _get_diff_index_spec first second :
  first <> second ->
  _get_diff_index first second = Return (Z.of_nat (len (common_prefix first second))).
Proof.
  intros N. unfold _get_diff_index, str_eqb.
  destruct (list_eq_dec ascii_dec first second) as [E|_]; [contradiction|].
  destruct (len first =? 0) eqn:E1.
  { apply Nat.eqb_eq in E1. destruct first; [reflexivity | discriminate]. }
  destruct (len second =? 0) eqn:E2.
  { apply Nat.eqb_eq in E2. destruct second; [|discriminate]. simpl.
    rewrite common_prefix_nil_r. reflexivity. }
  simpl orb. cbv iota.
  assert (D := diff_loop_spec first second [] [] _ eq_refl eq_refl).
  simpl in D. exact D.
Qed.

(** X5: [_get_diff_index] returns [-1] on equal strings; on different
    strings it returns the first index where they differ, or the length of
    the shorter one when that one is a prefix of the other, without
    raising [IndexError]. *)
Theorem get_diff_index_first_difference first second :
  first <> second ->
  _get_diff_index first first = Return (-1)%Z /\
  exists i,
    _get_diff_index first second = Return (Z.of_nat i) /\
    i <= Nat.min (len first) (len second) /\
    firstn i first = firstn i second /\
    (forall x y, nth_error first i = Some x -> nth_error second i = Some y -> x <> y).
Proof.
  intros N. split.
  - unfold _get_diff_index, str_eqb.
    destruct (list_eq_dec ascii_dec first first) as [_|N']; [reflexivity | congruence].
  - exists (len (common_prefix first second)).
    split; [apply _get_diff_index_spec; exact N|].
    split; [apply common_prefix_length|].
    split; [|apply common_prefix_next].
    transitivity (common_prefix first second); [apply common_prefix_firstn|].
    rewrite (common_prefix_sym first second). symmetry. apply common_prefix_firstn.
Qed.

Lemma get_diff_index_first_difference_witness :
  _get_diff_index (py "DIXON") (py "DIXON") = Return (-1)%Z /\
  exists i,
    _get_diff_index (py "DIXON") (py "DICKSONX") = Return (Z.of_nat i) /\
    i <= Nat.min (len (py "DIXON")) (len (py "DICKSONX")) /\
    firstn i (py "DIXON") = firstn i (py "DICKSONX") /\
    (forall x y, nth_error (py "DIXON") i = Some x ->
                 nth_error (py "DICKSONX") i = Some y -> x <> y).
Proof.
  apply (get_diff_index_first_difference (py "DIXON") (py "DICKSONX")). discriminate.
Defined.

(** X6: [_get_prefix] never raises and is symmetric; its result is a
    prefix of both arguments, and the characters that follow it, if both
    strings have one, differ. *)
Theorem get_prefix_common first second :
  exists p,
    _get_prefix first second = Return p /\
    _get_prefix second first = Return p /\
    firstn (len p) first = p /\
    firstn (len p) second = p /\
    (forall x y, nth_error first (len p) = Some x ->
                 nth_error second (len p) = Some y -> x <> y).
Proof.
  exists (common_prefix first second).
  split; [apply _get_prefix_spec|].
  split; [rewrite _get_prefix_spec, common_prefix_sym; reflexivity|].
  split; [apply common_prefix_firstn|].
  split; [|apply common_prefix_next].
  rewrite (common_prefix_sym first second). apply common_prefix_firstn.
Qed.

(** ** [_score] on any two strings *)

Lemma matching_loop_nil_second limit rest : forall i common,
  matching_loop limit i rest common [] = Return common.
Proof.
  intros i common. apply matching_loop_disjoint. intros c _ [].
Qed.

(** X7: [_score] never raises on any two strings, the empty one too: it
    returns a value in [0.0, 1.0], and [0.0] when an argument is empty. *)
Theorem score_never_raises first second :
  (exists j, _score first second = Return j /\ (0 <= j <= 1)%Q) /\
  _score [] second = Return 0%Q /\
  _score first [] = Return 0%Q.
Proof.
  assert (E : forall a b, a = [] \/ b = [] -> _score a b = Return 0%Q).
  { intros a b H. rewrite _score_unfold.
    assert (D : disjoint (lower a) (lower b)).
    { destruct H as [-> | ->]; intros c Ha Hb; [destruct Ha | destruct Hb]. }
    destruct (len b <? len a).
    - apply score_of_disjoint, disjoint_sym, D.
    - apply score_of_disjoint, D. }
  split; [|split; apply E; [left | right]; reflexivity].
  destruct (_score_spec first second) as (j & Ej & J & _). exists j. split; assumption.
Qed.

(** ** The entry point on any two values *)

(** X8: on strings of different lengths the raw score and
    [get_jaro_distance], whatever the flags and the scaling factor, are
    symmetric in the two strings. *)
Theorem get_jaro_distance_symmetric_unequal_lengths a b winkler winkler_ajustment scaling :
  len a <> len b ->
  _score a b = _score b a /\
  get_jaro_distance (PyStr a) (PyStr b) winkler winkler_ajustment scaling =
  get_jaro_distance (PyStr b) (PyStr a) winkler winkler_ajustment scaling.
Proof.
  intros H. assert (S := _score_symmetric_unequal_lengths a b H). split; [exact S|].
  destruct a as [|x a]; [destruct b; reflexivity|].
  destruct b as [|y b]; [reflexivity|].
  rewrite !get_jaro_distance_str by discriminate.
  rewrite S, (common_prefix_sym (x :: a) (y :: b)). reflexivity.
Qed.

Lemma get_jaro_distance_symmetric_unequal_lengths_witness :
  _score (py "DIXON") (py "DICKSONX") = _score (py "DICKSONX") (py "DIXON") /\
  get_jaro_distance (PyStr (py "DIXON")) (PyStr (py "DICKSONX")) true true default_scaling =
  get_jaro_distance (PyStr (py "DICKSONX")) (PyStr (py "DIXON")) true true default_scaling.
Proof.
  apply (get_jaro_distance_symmetric_unequal_lengths
           (py "DIXON") (py "DICKSONX") true true default_scaling).
  simpl. lia.
Defined.

(** X9: unless both [winkler] and [winkler_ajustment] are true,
    [get_jaro_distance] returns the raw score of [_score], not rounded,
    whatever the scaling factor. *)
Theorem get_jaro_distance_without_winkler a b winkler winkler_ajustment scaling :
  a <> [] -> b <> [] -> winkler && winkler_ajustment = false ->
  get_jaro_distance (PyStr a) (PyStr b) winkler winkler_ajustment scaling = _score a b.
Proof.
  intros Ha Hb W. rewrite (get_jaro_distance_str a b _ _ _ Ha Hb), W.
  destruct (_score a b); reflexivity.
Qed.

Lemma get_jaro_distance_without_winkler_witness :
  get_jaro_distance (PyStr (py "MARTHA")) (PyStr (py "MARHTA")) true false default_scaling
  = _score (py "MARTHA") (py "MARHTA").
Proof.
  apply (get_jaro_distance_without_winkler (py "MARTHA") (py "MARHTA") true false default_scaling).
  - discriminate.
  - discriminate.
  - reflexivity.
Defined.

Lemma round_hundredths x : (0 <= x <= 1)%Q -> (0 <= round (fmul x 100) <= 100)%Z.
Proof.
  intros H.
  assert (A : (0 <= fmul x 100 <= 100)%Q).
  { unfold fmul. split; [apply rnd_nonneg; lra | apply rnd_le_const; [lra | reflexivity]]. }
  unfold round. split; [apply rne_ge_Z | apply rne_le_Z]; apply A.
Qed.

(** X10: with the Winkler adjustment and a scaling factor in [0, 0.25],
    [get_jaro_distance] returns [k / 100.0] for an integer [k] from 0 to
    100. *)
Theorem get_jaro_distance_hundredths a b scaling :
  a <> [] -> b <> [] -> (0 <= scaling <= 1 # 4)%Q ->
  exists k : Z,
    (0 <= k <= 100)%Z /\
    get_jaro_distance (PyStr a) (PyStr b) true true scaling = fdiv (of_int k) (lit 100).
Proof.
  intros Ha Hb Hs. rewrite (get_jaro_distance_str a b _ _ _ Ha Hb).
  destruct (_score_spec a b) as (jaro & E & J & F). rewrite E. simpl bind. simpl andb. cbv iota.
  set (cl := Nat.min (len (common_prefix a b)) 4).
  assert (A := adjusted_range jaro scaling cl J F Hs (Nat.le_min_r _ _)). cbv zeta in A.
  unfold winkler_adjusted.
  set (adjusted := fadd jaro (fmul (fmul scaling (of_int (Z.of_nat cl))) (fsub (lit 1) jaro))) in *.
  exists (round (fmul adjusted (lit 100))). split; [|reflexivity].
  destruct lit_small as (_ & _ & _ & L). rewrite L.
  apply round_hundredths. lra.
Qed.

Lemma get_jaro_distance_hundredths_witness :
  exists k : Z,
    (0 <= k <= 100)%Z /\
    get_jaro_distance (PyStr (py "DIXON")) (PyStr (py "DICKSONX")) true true default_scaling
    = fdiv (of_int k) (lit 100).
Proof.
  apply (get_jaro_distance_hundredths (py "DIXON") (py "DICKSONX") default_scaling).
  - discriminate.
  - discriminate.
  - vm_compute. split; discriminate.
Defined.

(** X11: with the scaling factor [0] the adjusted result is the raw score
    rounded to two decimals, [round(jaro * 100.0) / 100.0]. *)
Theorem get_jaro_distance_scaling_zero a b :
  a <> [] -> b <> [] ->
  get_jaro_distance (PyStr a) (PyStr b) true true 0 = (jaro <- _score a b ;; two_decimals jaro).
Proof.
  intros Ha Hb. rewrite (get_jaro_distance_str a b _ _ _ Ha Hb).
  destruct (_score_spec a b) as (jaro & E & J & F). rewrite E. simpl bind. simpl andb. cbv iota.
  rewrite winkler_adjusted_two_decimals. f_equal.
  set (n := of_int (Z.of_nat (Nat.min (len (common_prefix a b)) 4))).
  change (fmul 0 n) with (rnd (0 * n)). rewrite rnd_mult_0_l.
  change (fmul 0 (fsub (lit 1) jaro)) with (rnd (0 * fsub (lit 1) jaro)). rewrite rnd_mult_0_l.
  unfold fadd. assert (Z : (jaro + 0 == jaro)%Q) by ring.
  rewrite (rnd_comp _ _ Z). exact F.
Qed.

Lemma get_jaro_distance_scaling_zero_witness :
  get_jaro_distance (PyStr (py "DIXON")) (PyStr (py "DICKSONX")) true true 0
  = (jaro <- _score (py "DIXON") (py "DICKSONX") ;; two_decimals jaro).
Proof.
  apply (get_jaro_distance_scaling_zero (py "DIXON") (py "DICKSONX")); discriminate.
Defined.

(** X12: the outcomes of [get_jaro_distance] on any two values, for a
    scaling factor in [0, 0.25]: a result in [0.0, 1.0] for two non-empty
    strings, [JaroDistanceException] when an argument is false (checked
    first), [AttributeError] otherwise; never [ValueError], [IndexError] or
    [ZeroDivisionError]. *)
Theorem get_jaro_distance_outcomes first second winkler winkler_ajustment scaling :
  (0 <= scaling <= 1 # 4)%Q ->
  match get_jaro_distance first second winkler winkler_ajustment scaling with
  | Return r => nonempty_str first /\ nonempty_str second /\ (0 <= r <= 1)%Q
  | Raise e =>
      (e = invalid_input first second /\ (truthy first = false \/ truthy second = false)) \/
      (e = AttributeError /\ truthy first = true /\ truthy second = true /\
       ~ (nonempty_str first /\ nonempty_str second))
  end.
Proof.
  intros Hs.
  destruct (truthy first) eqn:T1; [|unfold get_jaro_distance; rewrite T1; left; auto].
  destruct (truthy second) eqn:T2;
    [|unfold get_jaro_distance; rewrite T1, T2; left; auto].
  assert (NotStr : forall v, (forall s, v <> PyStr s) -> ~ nonempty_str v).
  { intros v H (s & E & _). apply (H s E). }
  destruct first as [|a|items|items]; try discriminate T1.
  - destruct second as [|b|items|items]; try discriminate T2.
    + assert (Ha : a <> []) by (intros ->; discriminate T1).
      assert (Hb : b <> []) by (intros ->; discriminate T2).
      rewrite (get_jaro_distance_str a b _ _ _ Ha Hb).
      destruct (_score_spec a b) as (jaro & E & J & F). rewrite E. simpl bind.
      assert (Na : nonempty_str (PyStr a)) by (exists a; auto).
      assert (Nb : nonempty_str (PyStr b)) by (exists b; auto).
      destruct (winkler && winkler_ajustment).
      * destruct (winkler_adjusted_range jaro scaling _ J F Hs
                    (Nat.le_min_r (len (common_prefix a b)) 4)) as (r & Er & R).
        rewrite Er. auto.
      * auto.
    + unfold get_jaro_distance. rewrite T1, T2. right. repeat split; auto.
      intros [_ H]. revert H. apply NotStr. discriminate.
    + unfold get_jaro_distance. rewrite T1, T2. right. repeat split; auto.
      intros [_ H]. revert H. apply NotStr. discriminate.
  - unfold get_jaro_distance. rewrite T1, T2. right. repeat split; auto.
    intros [H _]. revert H. apply NotStr. discriminate.
  - unfold get_jaro_distance. rewrite T1, T2. right. repeat split; auto.
    intros [H _]. revert H. apply NotStr. discriminate.
Qed.

Lemma get_jaro_distance_outcomes_witness :
  match get_jaro_distance (PyList [PyStr (py "a")]) (PyStr (py "a")) true true default_scaling with
  | Return r =>
      nonempty_str (PyList [PyStr (py "a")]) /\ nonempty_str (PyStr (py "a")) /\ (0 <= r <= 1)%Q
  | Raise e =>
      (e = invalid_input (PyList [PyStr (py "a")]) (PyStr (py "a")) /\
       (truthy (PyList [PyStr (py "a")]) = false \/ truthy (PyStr (py "a")) = false)) \/
      (e = AttributeError /\ truthy (PyList [PyStr (py "a")]) = true /\
       truthy (PyStr (py "a")) = true /\
       ~ (nonempty_str (PyList [PyStr (py "a")]) /\ nonempty_str (PyStr (py "a"))))
  end.
Proof.
  apply (get_jaro_distance_outcomes (PyList [PyStr (py "a")]) (PyStr (py "a")) true true
           default_scaling).
  vm_compute. split; discriminate.
Defined.

(** ** The batch entry point on any list *)

Lemma comprehension_app {A B : Type} (f : A -> result B) xs : forall ys,
  comprehension f (xs ++ ys) =
  (r1 <- comprehension f xs ;; r2 <- comprehension f ys ;; Return (r1 ++ r2)).
Proof.
  induction xs as [|x xs IH]; intros ys; simpl.
  - destruct (comprehension f ys); reflexivity.
  - destruct (f x) as [y|e]; simpl; [|reflexivity].
    rewrite IH. destruct (comprehension f xs) as [r1|e]; simpl; [|reflexivity].
    destruct (comprehension f ys); reflexivity.
Qed.

(** X13: [get_jaro_distance_array] returns the empty list on the empty
    list, whatever [first] is, and on [cs1 + cs2] the results for [cs1]
    followed by those for [cs2], or the first exception. *)
Theorem get_jaro_distance_array_append first winkler winkler_ajustment scaling :
  let all cs := get_jaro_distance_array first (PyList cs) winkler winkler_ajustment scaling in
  all [] = Return [] /\
  forall cs1 cs2,
    all (cs1 ++ cs2) = (r1 <- all cs1 ;; r2 <- all cs2 ;; Return (r1 ++ r2)).
Proof.
  intros all. split; [reflexivity|].
  intros cs1 cs2. unfold all, get_jaro_distance_array. apply comprehension_app.
Qed.

(** ** The number of matches *)

Lemma consume_length s k : k < len s -> len (consume s k) = len s.
Proof.
  intros H. unfold consume, slice, len in *. simpl.
  rewrite length_app, length_firstn. simpl. rewrite length_skipn. lia.
Qed.

Lemma matching_steps_length limit rest : forall i common consumed second m ks w,
  matching_steps limit i rest common consumed second = Return (m, ks, w) ->
  len w = len second.
Proof.
  induction rest as [|l rest IH]; intros i common consumed second m ks w; simpl.
  - intros E. injection E as _ _ <-. reflexivity.
  - destruct (contains _ l) eqn:C; [|apply IH].
    apply contains_In in C. apply slice_incl in C.
    destruct (index_In _ _ C) as (k & Ek & Nk). rewrite Ek. simpl bind.
    change (slice second 0 k ++ sentinel :: skipn (k + 1) second) with (consume second k).
    intros E. apply IH in E. rewrite E. apply consume_length.
    apply (nth_error_lt _ _ _ Nk).
Qed.

(** X14: when [first] holds no ["*"], [_get_matching_characters] returns
    at most as many characters as the shorter of the two strings has. *)
Theorem matches_at_most_shorter_length first second :
  ~ In sentinel first ->
  exists m,
    _get_matching_characters first second = Return m /\
    len m <= Nat.min (len first) (len second).
Proof.
  intros H.
  destruct (matching_steps_once (Nat.min (len first) (len second) / 2) first 0 [] [] second H
              eq_refl (NoDup_nil _) (Forall_nil _)) as (m & ks & w & E & L & N & F).
  assert (Lw := matching_steps_length _ _ _ _ _ _ _ _ _ E).
  assert (Em : _get_matching_characters first second = Return m).
  { unfold _get_matching_characters. rewrite (matching_loop_steps _ _ _ _ []), E. reflexivity. }
  destruct (_get_matching_characters_spec first second) as (m' & Em' & Lm).
  rewrite Em in Em'. injection Em' as <-.
  exists m. split; [exact Em|].
  assert (I : incl ks (seq 0 (len second))).
  { intros k Hk. apply in_seq. rewrite Forall_forall in F.
    assert (B := nth_error_lt _ _ _ (F k Hk)). lia. }
  assert (B := NoDup_incl_length N I). rewrite length_seq in B. lia.
Qed.

Lemma matches_at_most_shorter_length_witness :
  exists m,
    _get_matching_characters (py "DICKSONX") (py "DIXON") = Return m /\
    len m <= Nat.min (len (py "DICKSONX")) (len (py "DIXON")).
Proof.
  apply (matches_at_most_shorter_length (py "DICKSONX") (py "DIXON")).
  vm_compute. intuition discriminate.
Defined.

(** ** Doubling a float *)

Lemma rnd_pos_comp x y : (0 < x)%Q -> (x == y)%Q -> (rnd_pos x == rnd_pos y)%Q.
Proof.
  intros Hx E. unfold rnd_pos, ulp_exp. rewrite (ilog2_comp x y Hx E).
  set (u := Z.max (ilog2 y - 52) (-1074)).
  assert (D : (x / pow2 u == y / pow2 u)%Q) by (rewrite E; reflexivity).
  rewrite (rne_comp _ _ D). reflexivity.
Qed.

Lemma rnd_pos_double x : (1 <= x)%Q -> (rnd_pos (2 * x) == 2 * rnd_pos x)%Q.
Proof.
  intros Hx. assert (P : (0 < x)%Q) by lra.
  destruct (ilog2_spec x P) as [A B].
  assert (K : (0 <= ilog2 x)%Z).
  { assert (L : (0 < ilog2 x + 1)%Z); [|lia].
    apply pow2_lt_inv. rewrite pow2_0. lra. }
  assert (L2 : ilog2 (2 * x) = (ilog2 x + 1)%Z).
  { apply ilog2_unique.
    - rewrite pow2_add. change (pow2 1) with 2%Q. lra.
    - rewrite pow2_add. change (pow2 1) with 2%Q. lra. }
  unfold rnd_pos, ulp_exp. rewrite L2.
  replace (Z.max (ilog2 x + 1 - 52) (-1074)) with (Z.max (ilog2 x - 52) (-1074) + 1)%Z by lia.
  set (u := Z.max (ilog2 x - 52) (-1074)).
  assert (Pu := pow2_pos u).
  assert (D : (2 * x / pow2 (u + 1) == x / pow2 u)%Q).
  { rewrite pow2_add. change (pow2 1) with 2%Q. field. lra. }
  rewrite (rne_comp _ _ D), pow2_add. change (pow2 1) with 2%Q. ring.
Qed.

Lemma rnd_double x : (1 <= x)%Q -> (rnd (2 * x) == 2 * rnd x)%Q.
Proof.
  intros Hx.
  destruct (rnd_of_pos x) as (E1 & P1 & R1); [lra|].
  destruct (rnd_of_pos (2 * x)) as (E2 & P2 & R2); [lra|].
  rewrite E1, E2.
  assert (C : (Qred (2 * x) == 2 * Qred x)%Q) by lra.
  rewrite (rnd_pos_comp _ _ P2 C). apply rnd_pos_double. lra.
Qed.

Lemma rnd_ge_const x c : (c <= x)%Q -> rnd c = c -> (c <= rnd x)%Q.
Proof. intros H E. rewrite <- E. apply rnd_mono. exact H. Qed.

(** A count over at most its double is at least a half. *)
Lemma fdiv_ratio_half k n : (1 <= k <= n)%Z -> (n <= 2 * k)%Z ->
  exists r, fdiv (of_int k) (of_int n) = Return r /\ (1 # 2 <= r <= 1)%Q.
Proof.
  intros Hk Hn.
  assert (K := of_int_ge_1 k (proj1 Hk)).
  assert (N := of_int_ge_1 n ltac:(lia)).
  assert (KN := of_int_mono k n (proj2 Hk)).
  assert (N2 : (of_int n <= 2 * of_int k)%Q).
  { unfold of_int at 2. rewrite <- rnd_double.
    - apply rnd_mono. change (inject_Z n <= inject_Z 2 * inject_Z k)%Q.
      rewrite <- inject_Z_mult, <- Zle_Qle. exact Hn.
    - rewrite <- (Zle_Qle 1). lia. }
  rewrite fdiv_nonzero by lra. eexists. split; [reflexivity|].
  split.
  - apply rnd_ge_const; [|reflexivity]. apply Qle_shift_div_l; lra.
  - apply rnd_le_const; [|reflexivity]. apply Qle_shift_div_r; lra.
Qed.

(** ** No raw score between 0 and 1/6 *)

Lemma score_of_zero_or_sixth shorter longer :
  exists j, score_of shorter longer = Return j /\ (j = 0%Q \/ (lit (1 # 6) <= j)%Q).
Proof.
  unfold score_of.
  destruct (_get_matching_characters_spec shorter longer) as (m1 & E1 & L1).
  destruct (_get_matching_characters_spec longer shorter) as (m2 & E2 & L2).
  rewrite E1, E2. simpl bind.
  destruct ((len m1 =? 0) || (len m2 =? 0)) eqn:Z.
  - exists (lit 0). split; [reflexivity | left; reflexivity].
  - apply orb_false_iff in Z. destruct Z as [Z1 Z2].
    apply Nat.eqb_neq in Z1. apply Nat.eqb_neq in Z2.
    assert (T := _transpositions_double_le m1 m2).
    destruct (fdiv_ratio (Z.of_nat (len m1)) (Z.of_nat (len shorter))) as (x1 & F1 & R1 & _); [lia | lia |].
    destruct (fdiv_ratio (Z.of_nat (len m2)) (Z.of_nat (len longer))) as (x2 & F2 & R2 & _); [lia | lia |].
    destruct (fdiv_ratio_half (Z.of_nat (len m1) - Z.of_nat (_transpositions m1 m2)) (Z.of_nat (len m1)))
      as (x3 & F3 & R3); [lia | lia |].
    rewrite F1, F2, F3. simpl bind.
    destruct lit_small as (_ & _ & L3 & _). rewrite L3.
    assert (S12 : (0 <= fadd x1 x2)%Q) by (unfold fadd; apply rnd_nonneg; lra).
    assert (S123 : (1 # 2 <= fadd (fadd x1 x2) x3)%Q).
    { unfold fadd at 1. apply rnd_ge_const; [lra | reflexivity]. }
    rewrite fdiv_nonzero by (apply Qnot_eq_sym, Qlt_not_eq; reflexivity).
    eexists. split; [reflexivity|]. right. unfold lit. apply rnd_mono.
    unfold Qdiv. change (/ 3)%Q with (1 # 3)%Q. lra.
Qed.

(** X15: the raw score is [0.0] or at least the float [1/6]: with a match
    in both directions the transpositions take away at most half of the
    third term. *)
Theorem score_zero_or_sixth first second :
  exists j, _score first second = Return j /\ (j = 0%Q \/ (lit (1 # 6) <= j)%Q).
Proof.
  rewrite _score_unfold. destruct (len second <? len first); apply score_of_zero_or_sixth.
Qed.

(** ** A greater scaling factor *)

(** X16: for scaling factors in [0, 0.25] the adjusted result never
    decreases when the scaling factor grows. *)
Theorem get_jaro_distance_monotone_in_scaling a b scaling scaling' :
  a <> [] -> b <> [] ->
  (0 <= scaling)%Q -> (scaling <= scaling')%Q -> (scaling' <= 1 # 4)%Q ->
  exists r r',
    get_jaro_distance (PyStr a) (PyStr b) true true scaling = Return r /\
    get_jaro_distance (PyStr a) (PyStr b) true true scaling' = Return r' /\
    (r <= r')%Q.
Proof.
  intros Ha Hb H0 H1 H2. rewrite !(get_jaro_distance_str a b _ _ _ Ha Hb).
  destruct (_score_spec a b) as (jaro & E & J & F). rewrite E. simpl bind. simpl andb. cbv iota.
  set (cl := Nat.min (len (common_prefix a b)) 4).
  rewrite !winkler_adjusted_two_decimals.
  set (n := of_int (Z.of_nat cl)).
  assert (N : (0 <= n)%Q) by (apply of_int_nonneg; lia).
  assert (B : (0 <= fsub (lit 1) jaro)%Q).
  { destruct lit_small as (_ & L1 & _ & _). rewrite L1. unfold fsub. apply rnd_nonneg. lra. }
  set (d := fsub (lit 1) jaro) in *.
  assert (M : (fmul scaling n <= fmul scaling' n)%Q) by (unfold fmul; apply rnd_mono; nra).
  assert (A : (fadd jaro (fmul (fmul scaling n) d) <= fadd jaro (fmul (fmul scaling' n) d))%Q).
  { unfold fadd. apply rnd_mono.
    assert (P : (fmul (fmul scaling n) d <= fmul (fmul scaling' n) d)%Q).
    { unfold fmul at 1 3. apply rnd_mono. nra. }
    lra. }
  destruct (two_decimals_returns (fadd jaro (fmul (fmul scaling n) d))) as [r Er].
  destruct (two_decimals_returns (fadd jaro (fmul (fmul scaling' n) d))) as [r' Er'].
  exists r, r'. split; [exact Er|]. split; [exact Er'|].
  apply (two_decimals_mono _ _ _ _ A Er Er').
Qed.

Lemma get_jaro_distance_monotone_in_scaling_witness :
  exists r r',
    get_jaro_distance (PyStr (py "DIXON")) (PyStr (py "DICKSONX")) true true (1 # 10) = Return r /\
    get_jaro_distance (PyStr (py "DIXON")) (PyStr (py "DICKSONX")) true true (1 # 5) = Return r' /\
    (r <= r')%Q.
Proof.
  apply (get_jaro_distance_monotone_in_scaling (py "DIXON") (py "DICKSONX") (1 # 10) (1 # 5));
    discriminate.
Defined.
